(** * BitArray: a shallow embedding of [include/BitArray.hpp]

    The header defines [template <typename T> class BitArray] together with
    its two cursor classes [Iterator] and [ReverseIterator].  The embedding
    keeps the C++ integer types visible:

    - [std::size_t] is a 64-bit unsigned integer, [long long] a 64-bit signed
      one and [int] a 32-bit signed one; every conversion between them is
      written out ([to_size_t], [to_long_long], [to_int]);
    - a block of type [T] is represented by its bit pattern, a [Z] in
      [0, 2^bits_per_block); signed and unsigned block types share it;
    - the buffer [blocks] is a [list Z]; a pointer into it is the [Z] index of
      the block it points to (which may lie outside the buffer);
    - behaviour the C++ standard leaves undefined (a shift by too many bits,
      an access outside the buffer) is an explicit outcome, never a default
      value;
    - storage obtained from [new block_type[...]] is not initialised: it
      holds arbitrary blocks, which the constructor takes as a parameter. *)

From Stdlib Require Import ZArith List Bool Lia String.
From stdpp Require Import base option list.
Import ListNotations.

Local Open Scope Z_scope.

(** ** Integer conversions *)

Definition to_size_t (z : Z) : Z := z mod 2 ^ 64.
Definition to_long_long (z : Z) : Z := (z + 2 ^ 63) mod 2 ^ 64 - 2 ^ 63.
Definition to_int (z : Z) : Z := (z + 2 ^ 31) mod 2 ^ 32 - 2 ^ 31.

(** [a << k] where [a] has type [int] (C++17 [expr.shift]): undefined when
    the count is not below the width of [int], when [a] is negative, or when
    [a * 2^k] does not fit [unsigned int]; otherwise that value converted
    to [int]. *)
Definition int_shl (a k : Z) : option Z :=
  if (0 <=? k) && (k <? 32) && (0 <=? a) && (a * 2 ^ k <? 2 ^ 32)
  then Some (to_int (a * 2 ^ k))
  else None.

(** ** Block types *)

Record block_type : Type := { sizeof : Z }.

Definition uint8_t : block_type := {| sizeof := 1 |}.
Definition uint16_t : block_type := {| sizeof := 2 |}.
Definition uint32_t : block_type := {| sizeof := 4 |}.
Definition uint64_t : block_type := {| sizeof := 8 |}.

Definition CHAR_BIT : Z := 8.

(** The second [static_assert] of the class. *)
Definition power_of_2_size (T : block_type) : bool :=
  Z.land (sizeof T) (sizeof T - 1) =? 0.

Definition bits_per_block (T : block_type) : Z := sizeof T * CHAR_BIT.
Definition default_size : Z := 16.

(** Conversion of an integer to the block type. *)
Definition to_block (T : block_type) (z : Z) : Z := z mod 2 ^ bits_per_block T.

(** Reading the block a pointer designates; [None] outside the buffer. *)
Definition load (mem : list Z) (p : Z) : option Z :=
  if p <? 0 then None else mem !! Z.to_nat p.

(** ** Exceptions and outcomes *)

Inductive exn : Type :=
| range_error (what : string).

Record BitArray : Type := { blocks : list Z; bits : Z }.

(** What a call of a member function can do: return normally, leave by an
    exception (the object survives), or have no defined behaviour. *)
Inductive outcome (A : Type) : Type :=
| Ok (a : A) (s : BitArray)
| Raise (e : exn) (s : BitArray)
| Undefined.
Arguments Ok {A} a s.
Arguments Raise {A} e s.
Arguments Undefined {A}.

Definition M (A : Type) : Type := BitArray -> outcome A.

Definition ret {A} (a : A) : M A := fun s => Ok a s.

Definition bind {A B} (m : M A) (k : A -> M B) : M B :=
  fun s =>
    match m s with
    | Ok a s' => k a s'
    | Raise e s' => Raise e s'
    | Undefined => Undefined
    end.

Definition throw {A} (e : exn) : M A := fun s => Raise e s.

(** A [const noexcept] computation whose result may be undefined. *)
Definition defined {A} (f : BitArray -> option A) : M A :=
  fun s => match f s with Some a => Ok a s | None => Undefined end.

Notation "m1 ;> m2" := (bind m1 (fun _ => m2))
  (at level 100, right associativity).

(** [for (long long i = lo; i < lo + count; i++) body(i);] *)
Fixpoint for_loop (count : nat) (i : Z) (body : Z -> M unit) : M unit :=
  match count with
  | O => ret tt
  | S count' => body i ;> for_loop count' (i + 1) body
  end.

(** ** The container *)

Section Container.
Variable T : block_type.
Abbreviation w := (bits_per_block T).

(** [return (1 << (bits_per_block - (index & (bits_per_block - 1)) - 1));]
    The literal [1] is an [int]; the count is a [std::size_t]; the result
    is converted to the block type on return. *)
Definition block_bitmask (index : Z) : option Z :=
  to_block T <$> int_shl 1 (to_size_t (w - Z.land index (w - 1) - 1)).

(** [return blocks[index / bits_per_block] & block_bitmask(index);] *)
Definition bit_at (b : BitArray) (index : Z) : option bool :=
  blk ← load (blocks b) (index / w);
  mask ← block_bitmask index;
  Some (negb (Z.land blk mask =? 0)).

(** [return bit < bits;] compares at type [std::size_t]. *)
Definition accessible (b : BitArray) (bit : Z) : bool :=
  bit <? to_size_t (bits b).

Definition store (index : Z) (f : Z -> Z -> Z) : M unit :=
  fun b =>
    match load (blocks b) (index / w), block_bitmask index with
    | Some blk, Some mask =>
        Ok tt {| blocks := <[Z.to_nat (index / w) := to_block T (f blk mask)]> (blocks b);
                 bits := bits b |}
    | _, _ => Undefined
    end.

(** [blocks[index / bits_per_block] |= block_bitmask(index);] *)
Definition set (index : Z) : M unit :=
  store index (fun blk mask => Z.lor blk mask).

(** [blocks[index / bits_per_block] &= ~block_bitmask(index);]  The
    complement is taken after integral promotion, so it is [Z.lnot]. *)
Definition clear (index : Z) : M unit :=
  store index (fun blk mask => Z.land blk (Z.lnot mask)).

Definition set_all : M unit :=
  fun b => for_loop (Z.to_nat (bits b)) 0 (fun i => set (to_size_t i)) b.

Definition clear_all : M unit :=
  fun b => for_loop (Z.to_nat (bits b)) 0 (fun i => clear (to_size_t i)) b.

Definition at_ (index : Z) : M bool :=
  fun b =>
    if accessible b index then defined (fun b => bit_at b index) b
    else throw (range_error "index out of range") b.

(** [operator[]] *)
Definition subscript (b : BitArray) (index : Z) : option bool := bit_at b index.

Definition size (b : BitArray) : Z := to_size_t (bits b).

(** [(num_bits / bits_per_block) + !!(num_bits % bits_per_block)], computed
    at type [std::size_t]. *)
Definition block_count (num_bits : Z) : Z :=
  to_size_t num_bits / w + (if to_size_t num_bits mod w =? 0 then 0 else 1).

(** [new block_type[count]]: default-initialised storage, that is, [count]
    blocks holding whatever the allocator hands out.  [heap k] is that
    content for the [k]-th block. *)
Definition new_array (heap : nat -> Z) (count : Z) : list Z :=
  (fun k => to_block T (heap k)) <$> seq 0 (Z.to_nat count).

(** [BitArray(long long num_bits)] *)
Definition construct (heap : nat -> Z) (num_bits : Z) : outcome unit :=
  clear_all {| blocks := new_array heap (block_count num_bits); bits := num_bits |}.

(** [BitArray()] *)
Definition construct_default (heap : nat -> Z) : outcome unit :=
  construct heap default_size.
End Container.

(** ** The forward cursor, [BitArray<T>::Iterator] *)

Module Iterator.

Record t : Type := { ptr : Z; current_idx : Z }.

Section Ops.
Variable T : block_type.
Abbreviation w := (bits_per_block T).

(** [Iterator(IterType *ptr, long long idx)] *)
Definition ctor (p idx : Z) : t := {| ptr := p; current_idx := idx |}.

(** [operator++()]; [current_idx + 1 < bits_per_block] compares at type
    [std::size_t]. *)
Definition incr (it : t) : t :=
  if to_size_t (current_idx it + 1) <? w
  then {| ptr := ptr it; current_idx := current_idx it + 1 |}
  else {| ptr := ptr it + 1; current_idx := 0 |}.

(** [operator--()] *)
Definition decr (it : t) : t :=
  if current_idx it =? 0
  then {| ptr := ptr it - 1; current_idx := to_long_long (to_size_t (w - 1)) |}
  else {| ptr := ptr it; current_idx := current_idx it - 1 |}.

(** [operator*()]: [return *ptr & block_bitmask(current_idx);] *)
Definition deref (mem : list Z) (it : t) : option bool :=
  blk ← load mem (ptr it);
  mask ← block_bitmask T (to_size_t (current_idx it));
  Some (negb (Z.land blk mask =? 0)).

Definition eq (a b : t) : bool :=
  (ptr a =? ptr b) && (current_idx a =? current_idx b).

Definition ne (a b : t) : bool :=
  negb (ptr a =? ptr b) || negb (current_idx a =? current_idx b).
End Ops.

End Iterator.

(** ** The reverse cursor, [BitArray<T>::ReverseIterator] *)

Module ReverseIterator.

Record t : Type := { ptr : Z; current_idx : Z }.

Section Ops.
Variable T : block_type.
Abbreviation w := (bits_per_block T).

(** [ReverseIterator(IterType *ptr, long long idx, long long nbits)
      : ptr{ptr}, current_idx{idx}
    { if (idx < 0) { current_idx = bits_per_block - 1; ptr--; } }]

    Inside the body the name [ptr] denotes the constructor's parameter,
    which hides the data member of the same name: the decrement changes the
    parameter, and the member keeps the value its initialiser gave it.
    [current_idx] is not hidden (the parameter is called [idx]). *)
Definition ctor (ptr_param idx nbits : Z) : t :=
  let this := {| ptr := ptr_param; current_idx := idx |} in
  if idx <? 0 then
    let this := {| ptr := ptr this; current_idx := to_long_long (to_size_t (w - 1)) |} in
    let ptr_param := ptr_param - 1 in
    this
  else this.

(** [operator++()] *)
Definition incr (it : t) : t :=
  if current_idx it =? 0
  then {| ptr := ptr it - 1; current_idx := to_long_long (to_size_t (w - 1)) |}
  else {| ptr := ptr it; current_idx := current_idx it - 1 |}.

(** [operator--()] *)
Definition decr (it : t) : t :=
  if to_size_t (current_idx it + 1) <? w
  then {| ptr := ptr it; current_idx := current_idx it + 1 |}
  else {| ptr := ptr it + 1; current_idx := 0 |}.

(** [operator*()] *)
Definition deref (mem : list Z) (it : t) : option bool :=
  blk ← load mem (ptr it);
  mask ← block_bitmask T (to_size_t (current_idx it));
  Some (negb (Z.land blk mask =? 0)).

Definition eq (a b : t) : bool :=
  (ptr a =? ptr b) && (current_idx a =? current_idx b).

Definition ne (a b : t) : bool :=
  negb (ptr a =? ptr b) || negb (current_idx a =? current_idx b).
End Ops.

End ReverseIterator.

(** ** Iteration entry points and the loops callers write *)

(** The result of running a loop for a bounded number of tests of its
    condition: the loop ended after printing [l]; it dereferenced a cursor
    with no defined value ([Stuck]); or the bound was reached first. *)
Inductive trace : Type :=
| Yields (l : list bool)
| Stuck
| Timeout.

Definition yield (v : bool) (r : trace) : trace :=
  match r with Yields l => Yields (v :: l) | _ => r end.

Section Iteration.
Variable T : block_type.
Abbreviation w := (bits_per_block T).

(** [iterator{blocks, 0}]; a pointer is the index of its block, so [blocks]
    itself is [0]. *)
Definition begin_ (b : BitArray) : Iterator.t := Iterator.ctor 0 0.

(** [iterator{blocks + (bits / bits_per_block), (bits % bits_per_block)}] *)
Definition end_ (b : BitArray) : Iterator.t :=
  Iterator.ctor (0 + to_size_t (bits b) / w)
                (to_long_long (to_size_t (bits b) mod w)).

(** [reverse_iterator{blocks + (bits / bits_per_block),
      static_cast<long long>(bits % bits_per_block) - 1, bits}] *)
Definition rbegin (b : BitArray) : ReverseIterator.t :=
  ReverseIterator.ctor T (0 + to_size_t (bits b) / w)
                       (to_long_long (to_size_t (bits b) mod w) - 1) (bits b).

(** [reverse_iterator{blocks, -1, bits}] *)
Definition rend (b : BitArray) : ReverseIterator.t :=
  ReverseIterator.ctor T 0 (-1) (bits b).

(** [for (auto it = first; it != last; it++) out << *it;] *)
Fixpoint forward_loop (fuel : nat) (mem : list Z) (it last : Iterator.t) : trace :=
  match fuel with
  | O => Timeout
  | S fuel' =>
      if Iterator.ne it last then
        match Iterator.deref T mem it with
        | Some v => yield v (forward_loop fuel' mem (Iterator.incr T it) last)
        | None => Stuck
        end
      else Yields []
  end.

Fixpoint reverse_loop (fuel : nat) (mem : list Z) (it last : ReverseIterator.t) : trace :=
  match fuel with
  | O => Timeout
  | S fuel' =>
      if ReverseIterator.ne it last then
        match ReverseIterator.deref T mem it with
        | Some v => yield v (reverse_loop fuel' mem (ReverseIterator.incr T it) last)
        | None => Stuck
        end
      else Yields []
  end.

Definition forward_iteration (fuel : nat) (b : BitArray) : trace :=
  forward_loop fuel (blocks b) (begin_ b) (end_ b).

Definition reverse_iteration (fuel : nat) (b : BitArray) : trace :=
  reverse_loop fuel (blocks b) (rbegin b) (rend b).

(** Reading every bit through the checked accessor:
    [for (i = 0; i < arr.size(); i++) out << arr.at(i);] *)
Fixpoint read_from (count : nat) (i : Z) : M (list bool) :=
  match count with
  | O => ret []
  | S count' =>
      bind (at_ T i) (fun v => bind (read_from count' (i + 1)) (fun l => ret (v :: l)))
  end.

Definition read_all : M (list bool) :=
  fun b => read_from (Z.to_nat (size b)) 0 b.
End Iteration.

(** ** The read-only entry points and the postfix operators *)

Section ConstEntryPoints.
Variable T : block_type.
Abbreviation w := (bits_per_block T).

(** [const_iterator{blocks, 0}] *)
Definition cbegin (b : BitArray) : Iterator.t := Iterator.ctor 0 0.

(** [const_iterator{blocks + (bits / bits_per_block), (bits % bits_per_block)}] *)
Definition cend (b : BitArray) : Iterator.t :=
  Iterator.ctor (0 + to_size_t (bits b) / w)
                (to_long_long (to_size_t (bits b) mod w)).

(** [const_reverse_iterator{blocks + (bits / bits_per_block),
      (bits % bits_per_block) - 1, bits}]: unlike [rbegin], the offset is
    computed at type [std::size_t] and converted to [long long] only when it
    is passed to the constructor. *)
Definition crbegin (b : BitArray) : ReverseIterator.t :=
  ReverseIterator.ctor T (0 + to_size_t (bits b) / w)
                       (to_long_long (to_size_t (to_size_t (bits b) mod w - 1)))
                       (bits b).

(** [const_reverse_iterator{blocks, -1, bits}] *)
Definition crend (b : BitArray) : ReverseIterator.t :=
  ReverseIterator.ctor T 0 (-1) (bits b).

(** [Iterator operator++(int)] and [operator--(int)]: the value returned
    (the copy taken before the step) and the cursor afterwards. *)
Definition post_incr (it : Iterator.t) : Iterator.t * Iterator.t :=
  let copy := it in (copy, Iterator.incr T it).

Definition post_decr (it : Iterator.t) : Iterator.t * Iterator.t :=
  let copy := it in (copy, Iterator.decr T it).

(** [ReverseIterator operator++(int)] and [operator--(int)]. *)
Definition rpost_incr (it : ReverseIterator.t) : ReverseIterator.t * ReverseIterator.t :=
  let copy := it in (copy, ReverseIterator.incr T it).

Definition rpost_decr (it : ReverseIterator.t) : ReverseIterator.t * ReverseIterator.t :=
  let copy := it in (copy, ReverseIterator.decr T it).

(** [print] of [main.cpp]:
    [for (auto it = arr.rbegin(); it != arr.rend(); it++) std::cout << *it;]
    The bits written, in order. *)
Fixpoint print_loop (fuel : nat) (mem : list Z) (it last : ReverseIterator.t) : trace :=
  match fuel with
  | O => Timeout
  | S fuel' =>
      if ReverseIterator.ne it last then
        match ReverseIterator.deref T mem it with
        | Some v => yield v (print_loop fuel' mem (snd (rpost_incr it)) last)
        | None => Stuck
        end
      else Yields []
  end.

Definition print (fuel : nat) (arr : BitArray) : trace :=
  print_loop fuel (blocks arr) (rbegin T arr) (rend T arr).
End ConstEntryPoints.

(** * Specification vocabulary *)

(** [block_bitmask] shifts the [int] literal [1]; the shift has a defined,
    single-bit result exactly for the block types of at most 32 bits. *)
Definition fits_int (T : block_type) : Prop :=
  T = uint8_t \/ T = uint16_t \/ T = uint32_t.

(** The value of physical bit [p] of a buffer: block [p / w], counted from
    the most significant bit of the block. *)
Definition phys_bit (T : block_type) (mem : list Z) (p : Z) : bool :=
  match load mem (p / bits_per_block T) with
  | Some blk => Z.testbit blk (bits_per_block T - 1 - p mod bits_per_block T)
  | None => false
  end.

(** [ceil(n / d)] *)
Definition ceil_div (n d : Z) : Z := (n + d - 1) / d.

(** The representation invariant of a live container. *)
Definition wf (T : block_type) (b : BitArray) : Prop :=
  0 <= bits b < 2 ^ 63 /\
  Z.of_nat (length (blocks b)) = ceil_div (bits b) (bits_per_block T) /\
  Forall (fun blk => 0 <= blk < 2 ^ bits_per_block T) (blocks b).

(** What [set] ([v = true]) and [clear] ([v = false]) do to a block. *)
Definition writes (v : bool) (f : Z -> Z -> Z) : Prop :=
  forall blk k j, 0 <= k -> 0 <= j ->
    Z.testbit (f blk (2 ^ k)) j = if j =? k then v else Z.testbit blk j.

(** The containers a program can obtain: built by the constructor, then
    changed by the mutators at valid indices. *)
Inductive reachable (T : block_type) : BitArray -> Prop :=
| reach_construct heap n b :
    0 <= n < 2 ^ 63 -> construct T heap n = Ok tt b -> reachable T b
| reach_set b i b' :
    reachable T b -> 0 <= i < bits b -> set T i b = Ok tt b' -> reachable T b'
| reach_clear b i b' :
    reachable T b -> 0 <= i < bits b -> clear T i b = Ok tt b' -> reachable T b'
| reach_set_all b b' :
    reachable T b -> set_all T b = Ok tt b' -> reachable T b'
| reach_clear_all b b' :
    reachable T b -> clear_all T b = Ok tt b' -> reachable T b'.

(** The cursor that designates bit [k]. *)
Definition pos (T : block_type) (k : Z) : Iterator.t :=
  {| Iterator.ptr := k / bits_per_block T;
     Iterator.current_idx := k mod bits_per_block T |}.

(** A [BitArray<std::uint8_t>] of nine bits holding [101000001]. *)
Definition nine_bits : BitArray := {| blocks := [160; 128]; bits := 9 |}.

(** A [BitArray<std::uint8_t>] of seventeen bits holding
    [11111111 00001111 1]. *)
Definition seventeen_bits : BitArray := {| blocks := [255; 15; 128]; bits := 17 |}.

(** The array of [main.cpp] after [set_all()]. *)
Definition twenty_four_ones : BitArray := {| blocks := [255; 255; 255]; bits := 24 |}.

(** The block types of the fixed-width unsigned integers. *)
Definition supported (T : block_type) : Prop :=
  fits_int T \/ T = uint64_t.

(** The reverse cursor that designates bit [k]. *)
Definition rpos (T : block_type) (k : Z) : ReverseIterator.t :=
  {| ReverseIterator.ptr := k / bits_per_block T;
     ReverseIterator.current_idx := k mod bits_per_block T |}.

(** One call of a mutator that returns normally, at any index. *)
Inductive mutates (T : block_type) : BitArray -> BitArray -> Prop :=
| mut_set i b b' : set T i b = Ok tt b' -> mutates T b b'
| mut_clear i b b' : clear T i b = Ok tt b' -> mutates T b b'
| mut_set_all b b' : set_all T b = Ok tt b' -> mutates T b b'
| mut_clear_all b b' : clear_all T b = Ok tt b' -> mutates T b b'.

(** Any number of such calls. *)
Inductive evolves (T : block_type) : BitArray -> BitArray -> Prop :=
| evolves_refl b : evolves T b b
| evolves_step b b' b'' : evolves T b b' -> mutates T b' b'' -> evolves T b b''.



(** A 64-bit-block buffer of 64 bits, all zero, and one all ones. *)
Definition sixty_four_zeros : BitArray := {| blocks := [0]; bits := 64 |}.

Definition sixty_four_ones : BitArray :=
  {| blocks := [18446744073709551615]; bits := 64 |}.

(** * Verification *)

(** ** Tactics *)

(** Case analysis on the block type of a [fits_int] hypothesis. *)
Ltac width T H :=
  destruct H as [-> | [-> | ->]];
  change (bits_per_block uint8_t) with 8 in *;
  change (bits_per_block uint16_t) with 16 in *;
  change (bits_per_block uint32_t) with 32 in *.

(** Linear goals with division and remainder by a numeral. *)
Ltac divmod := Z.to_euclidean_division_equations; lia.

(** Case analysis on every integer comparison of the goal. *)
Ltac compare_cases :=
  repeat match goal with
    | |- context [?a <=? ?b] => destruct (Z.leb_spec a b)
    | |- context [?a <? ?b] => destruct (Z.ltb_spec a b)
    | |- context [?a =? ?b] => destruct (Z.eqb_spec a b)
    end;
  cbn [andb orb negb]; try reflexivity; try lia.

(** ** Widths and integer conversions *)

Lemma fits_int_width T :
  fits_int T ->
  bits_per_block T = 8 \/ bits_per_block T = 16 \/ bits_per_block T = 32.
Proof. intros H; width T H; auto. Qed.

Lemma fits_int_pos T : fits_int T -> 0 < bits_per_block T <= 32.
Proof. intros H; width T H; lia. Qed.

Lemma to_size_t_small z : 0 <= z < 2 ^ 64 -> to_size_t z = z.
Proof. intros H. unfold to_size_t. apply Z.mod_small. exact H. Qed.

Lemma to_long_long_small z : - 2 ^ 63 <= z < 2 ^ 63 -> to_long_long z = z.
Proof. intros H. unfold to_long_long. rewrite Z.mod_small; lia. Qed.

Lemma block_count_ceil T n :
  0 < bits_per_block T -> 0 <= n < 2 ^ 63 ->
  block_count T n = ceil_div n (bits_per_block T).
Proof.
  intros Hw Hn. unfold block_count, ceil_div.
  rewrite to_size_t_small by lia.
  destruct (Z.eqb_spec (n mod bits_per_block T) 0);
    Z.to_euclidean_division_equations; nia.
Qed.

(** *** The mask *)

Lemma land_pred_width T index :
  fits_int T ->
  Z.land index (bits_per_block T - 1) = index mod bits_per_block T.
Proof.
  intros H; width T H.
  - change (8 - 1) with (Z.ones 3). now rewrite Z.land_ones.
  - change (16 - 1) with (Z.ones 4). now rewrite Z.land_ones.
  - change (32 - 1) with (Z.ones 5). now rewrite Z.land_ones.
Qed.

Lemma int_shl_one k :
  0 <= k < 32 -> int_shl 1 k = Some (if k =? 31 then - 2 ^ 31 else 2 ^ k).
Proof.
  intros Hk. unfold int_shl.
  assert (Hp : 0 < 2 ^ k < 2 ^ 32).
  { split; [apply Z.pow_pos_nonneg; lia | apply Z.pow_lt_mono_r; lia]. }
  replace ((0 <=? k) && (k <? 32) && (0 <=? 1) && (1 * 2 ^ k <? 2 ^ 32)) with true
    by (symmetry; rewrite !andb_true_iff; repeat split; lia).
  f_equal. rewrite Z.mul_1_l. unfold to_int.
  destruct (Z.eqb_spec k 31) as [-> | Hne]; [reflexivity |].
  assert (2 ^ k < 2 ^ 31) by (apply Z.pow_lt_mono_r; lia).
  rewrite Z.mod_small; lia.
Qed.

Lemma block_bitmask_fits_int T index :
  fits_int T ->
  block_bitmask T index =
    Some (2 ^ (bits_per_block T - 1 - index mod bits_per_block T)).
Proof.
  intros H. unfold block_bitmask. rewrite (land_pred_width T index H).
  pose proof (fits_int_pos T H) as Hw.
  pose proof (Z.mod_pos_bound index (bits_per_block T) ltac:(lia)) as Hm.
  rewrite to_size_t_small by lia.
  rewrite int_shl_one by lia. cbn [fmap option_fmap option_map]. f_equal.
  replace (bits_per_block T - index mod bits_per_block T - 1)
    with (bits_per_block T - 1 - index mod bits_per_block T) by lia.
  set (k := bits_per_block T - 1 - index mod bits_per_block T) in *.
  unfold to_block.
  destruct (Z.eqb_spec k 31) as [Hk | Hk].
  - assert (bits_per_block T = 32) as -> by lia. rewrite Hk. reflexivity.
  - apply Z.mod_small. split; [apply Z.pow_nonneg; lia |].
    apply Z.pow_lt_mono_r; lia.
Qed.

(** *** Bits of a block *)

Lemma testbit_to_block T x j :
  0 <= bits_per_block T ->
  Z.testbit (to_block T x) j = (j <? bits_per_block T) && Z.testbit x j.
Proof. intros Hw. unfold to_block. now apply Z.testbit_mod_pow2. Qed.

Lemma to_block_range T x :
  0 <= bits_per_block T -> 0 <= to_block T x < 2 ^ bits_per_block T.
Proof.
  intros Hw. unfold to_block. apply Z.mod_pos_bound.
  apply Z.pow_pos_nonneg; lia.
Qed.

Lemma mask_test blk k :
  0 <= k -> negb (Z.land blk (2 ^ k) =? 0) = Z.testbit blk k.
Proof.
  intros Hk. destruct (Z.testbit blk k) eqn:Hb.
  - destruct (Z.eqb_spec (Z.land blk (2 ^ k)) 0) as [E | E]; [| reflexivity].
    assert (Ht : Z.testbit (Z.land blk (2 ^ k)) k = true).
    { rewrite Z.land_spec, Hb, Z.pow2_bits_true by lia. reflexivity. }
    rewrite E, Z.bits_0 in Ht. discriminate.
  - replace (Z.land blk (2 ^ k)) with 0; [reflexivity |].
    apply Z.bits_inj'. intros j Hj.
    rewrite Z.bits_0, Z.land_spec, Z.pow2_bits_eqb by lia.
    destruct (Z.eqb_spec k j) as [-> | _]; [now rewrite Hb | now rewrite andb_false_r].
Qed.

Lemma lor_mask_bits blk k j :
  0 <= k -> 0 <= j ->
  Z.testbit (Z.lor blk (2 ^ k)) j = if j =? k then true else Z.testbit blk j.
Proof.
  intros Hk Hj. rewrite Z.lor_spec, Z.pow2_bits_eqb by lia.
  rewrite (Z.eqb_sym k j). destruct (j =? k); [apply orb_true_r | apply orb_false_r].
Qed.

Lemma land_lnot_mask_bits blk k j :
  0 <= k -> 0 <= j ->
  Z.testbit (Z.land blk (Z.lnot (2 ^ k))) j = if j =? k then false else Z.testbit blk j.
Proof.
  intros Hk Hj. rewrite Z.land_spec, Z.lnot_spec, Z.pow2_bits_eqb by lia.
  rewrite (Z.eqb_sym k j). destruct (j =? k); [apply andb_false_r | apply andb_true_r].
Qed.

Lemma block_ext w x y :
  0 <= w -> 0 <= x < 2 ^ w -> 0 <= y < 2 ^ w ->
  (forall j, 0 <= j < w -> Z.testbit x j = Z.testbit y j) -> x = y.
Proof.
  intros Hw Hx Hy H. apply Z.bits_inj'. intros j Hj.
  destruct (Z.lt_ge_cases j w) as [Hlt | Hge]; [apply H; lia |].
  rewrite <- (Z.mod_small x (2 ^ w)), <- (Z.mod_small y (2 ^ w)) by lia.
  rewrite !Z.mod_pow2_bits_high by lia. reflexivity.
Qed.

(** *** Addressing *)

Lemma load_lookup mem q :
  0 <= q -> load mem q = mem !! Z.to_nat q.
Proof. intros Hq. unfold load. destruct (Z.ltb_spec q 0); [lia | reflexivity]. Qed.

Lemma load_neg mem q : q < 0 -> load mem q = None.
Proof. intros Hq. unfold load. destruct (Z.ltb_spec q 0); [reflexivity | lia]. Qed.

Lemma wf_width_index T b i :
  fits_int T -> wf T b -> 0 <= i < bits b ->
  (Z.to_nat (i / bits_per_block T) < length (blocks b))%nat.
Proof.
  intros HT (Hn & Hlen & _) Hi. apply Nat2Z.inj_lt. rewrite Hlen. unfold ceil_div.
  rewrite Z2Nat.id by (width T HT; divmod). width T HT; divmod.
Qed.

Lemma wf_load T b i :
  fits_int T -> wf T b -> 0 <= i < bits b ->
  exists blk, load (blocks b) (i / bits_per_block T) = Some blk /\
              0 <= blk < 2 ^ bits_per_block T.
Proof.
  intros HT Hwf Hi.
  pose proof (wf_width_index T b i HT Hwf Hi) as Hlt.
  destruct (lookup_lt_is_Some_2 _ _ Hlt) as [blk Hblk].
  exists blk. split.
  - rewrite load_lookup; [exact Hblk | width T HT; divmod].
  - destruct Hwf as (_ & _ & Hall).
    rewrite Forall_lookup in Hall. exact (Hall _ _ Hblk).
Qed.

Lemma bit_at_phys T b i :
  fits_int T -> wf T b -> 0 <= i < bits b ->
  bit_at T b i = Some (phys_bit T (blocks b) i).
Proof.
  intros HT Hwf Hi. destruct (wf_load T b i HT Hwf Hi) as (blk & Hl & _).
  unfold bit_at, phys_bit. rewrite Hl, (block_bitmask_fits_int T i HT).
  cbn [mbind option_bind]. f_equal. apply mask_test.
  width T HT; divmod.
Qed.

(** *** Writing one bit *)

Lemma store_spec T f v b i :
  writes v f -> fits_int T -> wf T b -> 0 <= i < bits b ->
  exists b',
    store T i f b = Ok tt b' /\ wf T b' /\ bits b' = bits b /\
    forall p, phys_bit T (blocks b') p = if p =? i then v else phys_bit T (blocks b) p.
Proof.
  intros Hf HT Hwf Hi.
  destruct (wf_load T b i HT Hwf Hi) as (blk & Hl & Hblk).
  pose proof (wf_width_index T b i HT Hwf Hi) as Hlt.
  pose proof (fits_int_pos T HT) as Hw.
  unfold store. rewrite Hl, (block_bitmask_fits_int T i HT).
  eexists. split; [reflexivity |]. split; [| split; [reflexivity |]].
  - destruct Hwf as (Hn & Hlen & Hall). repeat split; cbn [bits blocks]; try lia.
    + rewrite length_insert. exact Hlen.
    + apply Forall_insert; [exact Hall |]. apply to_block_range. lia.
  - intros p. cbn [blocks]. unfold phys_bit.
    set (w := bits_per_block T) in *.
    destruct (Z.lt_ge_cases (p / w) 0) as [Hneg | Hpos].
    { rewrite !load_neg by lia.
      destruct (Z.eqb_spec p i) as [-> | _]; [| reflexivity].
      exfalso. revert Hneg. subst w. width T HT; divmod. }
    rewrite !load_lookup by lia.
    assert (Hq : 0 <= i / w) by (subst w; width T HT; divmod).
    rewrite load_lookup in Hl by lia.
    destruct (Z.eq_dec (p / w) (i / w)) as [Eq | Ne].
    + rewrite Eq, list_lookup_insert_eq, Hl by exact Hlt.
      assert (Hj : 0 <= w - 1 - p mod w < w) by (subst w; width T HT; divmod).
      rewrite testbit_to_block by (subst w; lia). fold w.
      replace (w - 1 - p mod w <? w) with true by (symmetry; apply Z.ltb_lt; lia).
      cbn [andb]. rewrite Hf by (subst w; width T HT; divmod).
      destruct (Z.eqb_spec (w - 1 - p mod w) (w - 1 - i mod w)) as [E | E];
        destruct (Z.eqb_spec p i) as [E' | E']; try reflexivity; exfalso.
      * apply E'. rewrite (Z.div_mod p w), (Z.div_mod i w) by lia. rewrite Eq.
        f_equal. lia.
      * apply E. now rewrite E'.
    + rewrite list_lookup_insert_ne by lia.
      destruct (Z.eqb_spec p i) as [-> | _]; [contradiction | reflexivity].
Qed.

Lemma set_writes : writes true (fun blk mask => Z.lor blk mask).
Proof. intros blk k j Hk Hj. now apply lor_mask_bits. Qed.

Lemma clear_writes : writes false (fun blk mask => Z.land blk (Z.lnot mask)).
Proof. intros blk k j Hk Hj. now apply land_lnot_mask_bits. Qed.

Lemma set_spec T b i :
  fits_int T -> wf T b -> 0 <= i < bits b ->
  exists b',
    set T i b = Ok tt b' /\ wf T b' /\ bits b' = bits b /\
    forall p, phys_bit T (blocks b') p = if p =? i then true else phys_bit T (blocks b) p.
Proof. apply store_spec, set_writes. Qed.

Lemma clear_spec T b i :
  fits_int T -> wf T b -> 0 <= i < bits b ->
  exists b',
    clear T i b = Ok tt b' /\ wf T b' /\ bits b' = bits b /\
    forall p, phys_bit T (blocks b') p = if p =? i then false else phys_bit T (blocks b) p.
Proof. apply store_spec, clear_writes. Qed.

(** Two live containers with the same physical bits are the same value. *)
Lemma phys_bit_ext T b1 b2 :
  fits_int T -> wf T b1 -> wf T b2 -> bits b1 = bits b2 ->
  (forall p, phys_bit T (blocks b1) p = phys_bit T (blocks b2) p) ->
  b1 = b2.
Proof.
  intros HT (Hn1 & Hlen1 & Hall1) (Hn2 & Hlen2 & Hall2) Hbits Hp.
  destruct b1 as [l1 n1], b2 as [l2 n2]. cbn [bits blocks] in *. subst n2.
  f_equal. pose proof (fits_int_pos T HT) as Hw.
  assert (Hlen : length l1 = length l2) by lia.
  apply list_eq. intros k.
  destruct (l1 !! k) as [x |] eqn:H1.
  - destruct (lookup_lt_is_Some_2 l2 k) as [y H2].
    { rewrite <- Hlen. eapply lookup_lt_Some. exact H1. }
    rewrite H2. f_equal.
    rewrite Forall_lookup in Hall1, Hall2.
    apply (block_ext (bits_per_block T)); [lia | eauto | eauto |].
    intros j Hj.
    specialize (Hp (Z.of_nat k * bits_per_block T + (bits_per_block T - 1 - j))).
    unfold phys_bit in Hp.
    replace ((Z.of_nat k * bits_per_block T + (bits_per_block T - 1 - j)) / bits_per_block T)
      with (Z.of_nat k) in Hp by (width T HT; divmod).
    replace ((Z.of_nat k * bits_per_block T + (bits_per_block T - 1 - j)) mod bits_per_block T)
      with (bits_per_block T - 1 - j) in Hp by (width T HT; divmod).
    rewrite !load_lookup, Nat2Z.id, H1, H2 in Hp by lia.
    replace (bits_per_block T - 1 - (bits_per_block T - 1 - j)) with j in Hp by lia.
    exact Hp.
  - symmetry. apply lookup_ge_None. rewrite <- Hlen. now apply lookup_ge_None.
Qed.

(** *** The bulk loops *)

Lemma for_loop_store T f v :
  writes v f -> fits_int T ->
  forall count i b,
    wf T b -> 0 <= i -> i + Z.of_nat count <= bits b ->
    exists b',
      for_loop count i (fun i => store T (to_size_t i) f) b = Ok tt b' /\
      wf T b' /\ bits b' = bits b /\
      forall p, phys_bit T (blocks b') p =
                if (i <=? p) && (p <? i + Z.of_nat count) then v
                else phys_bit T (blocks b) p.
Proof.
  intros Hf HT. induction count as [| count IH]; intros i b Hwf Hi Hle.
  - exists b. cbn. repeat split; try apply Hwf. intros p. compare_cases.
  - assert (Hn : 0 <= bits b < 2 ^ 63) by apply Hwf.
    destruct (store_spec T f v b i Hf HT Hwf ltac:(lia)) as (b1 & E1 & Hwf1 & Hb1 & Hp1).
    destruct (IH (i + 1) b1 Hwf1 ltac:(lia) ltac:(lia)) as (b2 & E2 & Hwf2 & Hb2 & Hp2).
    exists b2. cbn [for_loop]. unfold bind at 1.
    rewrite to_size_t_small by lia. rewrite E1, E2.
    repeat split; try apply Hwf2; [congruence |].
    intros p. rewrite Hp2, Hp1. compare_cases.
Qed.

Lemma set_all_spec T b :
  fits_int T -> wf T b ->
  exists b',
    set_all T b = Ok tt b' /\ wf T b' /\ bits b' = bits b /\
    forall p, phys_bit T (blocks b') p =
              if (0 <=? p) && (p <? bits b) then true else phys_bit T (blocks b) p.
Proof.
  intros HT Hwf. assert (Hn : 0 <= bits b < 2 ^ 63) by apply Hwf.
  destruct (for_loop_store T _ true set_writes HT (Z.to_nat (bits b)) 0 b Hwf
              ltac:(lia) ltac:(lia)) as (b' & E & H1 & H2 & H3).
  exists b'. repeat split; try apply H1; [exact E | exact H2 |].
  intros p. rewrite H3, Z2Nat.id by lia. reflexivity.
Qed.

Lemma clear_all_spec T b :
  fits_int T -> wf T b ->
  exists b',
    clear_all T b = Ok tt b' /\ wf T b' /\ bits b' = bits b /\
    forall p, phys_bit T (blocks b') p =
              if (0 <=? p) && (p <? bits b) then false else phys_bit T (blocks b) p.
Proof.
  intros HT Hwf. assert (Hn : 0 <= bits b < 2 ^ 63) by apply Hwf.
  destruct (for_loop_store T _ false clear_writes HT (Z.to_nat (bits b)) 0 b Hwf
              ltac:(lia) ltac:(lia)) as (b' & E & H1 & H2 & H3).
  exists b'. repeat split; try apply H1; [exact E | exact H2 |].
  intros p. rewrite H3, Z2Nat.id by lia. reflexivity.
Qed.

(** *** Construction *)

Lemma new_array_wf T heap n :
  fits_int T -> 0 <= n < 2 ^ 63 ->
  wf T {| blocks := new_array T heap (block_count T n); bits := n |}.
Proof.
  intros HT Hn. pose proof (fits_int_pos T HT) as Hw.
  repeat split; cbn [bits blocks]; try lia.
  - unfold new_array. rewrite length_fmap, length_seq.
    rewrite block_count_ceil by lia.
    apply Z2Nat.id. unfold ceil_div. width T HT; divmod.
  - unfold new_array. apply Forall_fmap, Forall_forall. intros k _.
    apply to_block_range. lia.
Qed.

Lemma construct_spec T heap n :
  fits_int T -> 0 <= n < 2 ^ 63 ->
  exists b,
    construct T heap n = Ok tt b /\ wf T b /\ bits b = n /\
    forall p, phys_bit T (blocks b) p =
              if (0 <=? p) && (p <? n) then false
              else phys_bit T (new_array T heap (block_count T n)) p.
Proof.
  intros HT Hn. unfold construct.
  destruct (clear_all_spec T _ HT (new_array_wf T heap n HT Hn))
    as (b & E & Hwf & Hb & Hp).
  exists b. repeat split; try apply Hwf; assumption.
Qed.

(** *** Checked and unchecked reads *)

Lemma accessible_lt b i :
  0 <= bits b < 2 ^ 63 -> (accessible b i = true <-> i < bits b).
Proof.
  intros Hn. unfold accessible. rewrite to_size_t_small by lia. apply Z.ltb_lt.
Qed.

Lemma at_in_range T b i :
  fits_int T -> wf T b -> 0 <= i < bits b ->
  at_ T i b = Ok (phys_bit T (blocks b) i) b.
Proof.
  intros HT Hwf Hi. unfold at_.
  assert (Ha : accessible b i = true) by (apply accessible_lt; [apply Hwf | lia]).
  rewrite Ha. unfold defined. now rewrite bit_at_phys.
Qed.

Lemma at_out_of_range T b i :
  0 <= bits b < 2 ^ 63 -> bits b <= i ->
  at_ T i b = Raise (range_error "index out of range") b.
Proof.
  intros Hn Hi. unfold at_.
  destruct (accessible b i) eqn:Ha; [| reflexivity].
  apply accessible_lt in Ha; [lia | exact Hn].
Qed.

Lemma read_from_spec T b :
  fits_int T -> wf T b ->
  forall count i, 0 <= i -> i + Z.of_nat count <= bits b ->
    read_from T count i b =
      Ok (phys_bit T (blocks b) <$> seqZ i (Z.of_nat count)) b.
Proof.
  intros HT Hwf. induction count as [| count IH]; intros i Hi Hle.
  - reflexivity.
  - cbn [read_from]. unfold bind at 1. rewrite at_in_range by (auto; lia).
    unfold bind at 1. rewrite IH by lia. unfold bind, ret.
    rewrite (seqZ_cons i) by lia. cbn [fmap list_fmap].
    replace (Z.pred (Z.of_nat (S count))) with (Z.of_nat count) by lia.
    reflexivity.
Qed.

Lemma read_all_spec T b :
  fits_int T -> wf T b ->
  read_all T b = Ok (phys_bit T (blocks b) <$> seqZ 0 (bits b)) b.
Proof.
  intros HT Hwf. assert (Hn : 0 <= bits b < 2 ^ 63) by apply Hwf.
  unfold read_all, size. rewrite to_size_t_small by lia.
  rewrite read_from_spec by (auto; lia). now rewrite Z2Nat.id by lia.
Qed.

(** *** Every container a program can build satisfies the invariant *)

Lemma reachable_wf T b : fits_int T -> reachable T b -> wf T b.
Proof.
  intros HT H. induction H as [heap n b Hn E | b i b' _ IH Hi E | b i b' _ IH Hi E
                              | b b' _ IH E | b b' _ IH E].
  - destruct (construct_spec T heap n HT Hn) as (b0 & E0 & Hwf & _). congruence.
  - destruct (set_spec T b i HT IH Hi) as (b0 & E0 & Hwf & _). congruence.
  - destruct (clear_spec T b i HT IH Hi) as (b0 & E0 & Hwf & _). congruence.
  - destruct (set_all_spec T b HT IH) as (b0 & E0 & Hwf & _). congruence.
  - destruct (clear_all_spec T b HT IH) as (b0 & E0 & Hwf & _). congruence.
Qed.

(** *** The forward cursor *)

Lemma begin_pos T b : begin_ b = pos T 0.
Proof.
  unfold begin_, pos, Iterator.ctor. now rewrite Zdiv_0_l, Zmod_0_l.
Qed.

Lemma end_pos T b : fits_int T -> wf T b -> end_ T b = pos T (bits b).
Proof.
  intros HT (Hn & _). unfold end_, pos, Iterator.ctor.
  rewrite to_size_t_small by lia. rewrite to_long_long_small; [reflexivity |].
  width T HT; divmod.
Qed.

Lemma incr_pos T k :
  fits_int T -> 0 <= k -> Iterator.incr T (pos T k) = pos T (k + 1).
Proof.
  intros HT Hk. unfold Iterator.incr, pos. cbn [Iterator.ptr Iterator.current_idx].
  rewrite to_size_t_small by (width T HT; divmod).
  destruct (Z.ltb_spec (k mod bits_per_block T + 1) (bits_per_block T));
    f_equal; width T HT; divmod.
Qed.

Lemma iter_incr_pos T n :
  fits_int T -> Nat.iter n (Iterator.incr T) (pos T 0) = pos T (Z.of_nat n).
Proof.
  intros HT. induction n as [| n IH]; [reflexivity |].
  rewrite Nat.iter_succ, IH, incr_pos by (auto; lia). f_equal. lia.
Qed.

Lemma ne_pos T j k :
  fits_int T -> Iterator.ne (pos T j) (pos T k) = negb (j =? k).
Proof.
  intros HT. unfold Iterator.ne, pos. cbn [Iterator.ptr Iterator.current_idx].
  destruct (Z.eqb_spec j k) as [-> | Hne].
  - now rewrite !Z.eqb_refl.
  - destruct (Z.eqb_spec (j / bits_per_block T) (k / bits_per_block T));
      destruct (Z.eqb_spec (j mod bits_per_block T) (k mod bits_per_block T));
      try reflexivity.
    exfalso. apply Hne. width T HT; divmod.
Qed.

Lemma deref_pos T b k :
  fits_int T -> wf T b -> 0 <= k < bits b ->
  Iterator.deref T (blocks b) (pos T k) = Some (phys_bit T (blocks b) k).
Proof.
  intros HT Hwf Hk. destruct (wf_load T b k HT Hwf Hk) as (blk & Hl & _).
  unfold Iterator.deref, phys_bit, pos. cbn [Iterator.ptr Iterator.current_idx].
  rewrite Hl. rewrite to_size_t_small by (width T HT; divmod).
  rewrite (block_bitmask_fits_int T _ HT). cbn [mbind option_bind].
  rewrite Z.mod_mod by (width T HT; lia). f_equal. apply mask_test.
  width T HT; divmod.
Qed.

Lemma forward_loop_spec T b :
  fits_int T -> wf T b ->
  forall d k fuel,
    0 <= k -> k + Z.of_nat d = bits b -> (d < fuel)%nat ->
    forward_loop T fuel (blocks b) (pos T k) (pos T (bits b)) =
      Yields (phys_bit T (blocks b) <$> seqZ k (Z.of_nat d)).
Proof.
  intros HT Hwf. induction d as [| d IH]; intros k fuel Hk Hd Hf.
  - destruct fuel as [| fuel]; [lia |]. cbn [forward_loop].
    rewrite ne_pos by exact HT.
    replace (k =? bits b) with true by (symmetry; apply Z.eqb_eq; lia).
    reflexivity.
  - destruct fuel as [| fuel]; [lia |]. cbn [forward_loop].
    rewrite ne_pos by exact HT.
    replace (k =? bits b) with false by (symmetry; apply Z.eqb_neq; lia).
    cbn [negb]. rewrite deref_pos by (auto; lia).
    rewrite incr_pos by (auto; lia). rewrite IH by lia.
    cbn [yield]. rewrite (seqZ_cons k) by lia. cbn [fmap list_fmap].
    replace (Z.pred (Z.of_nat (S d))) with (Z.of_nat d) by lia.
    reflexivity.
Qed.

Lemma size_bits T b : wf T b -> size b = bits b.
Proof. intros (Hn & _). unfold size. apply to_size_t_small. lia. Qed.

(** *** Operations other than [at] never leave by an exception *)



(** *** Sample values *)

Lemma fits_int_uint8_t : fits_int uint8_t.
Proof. left; reflexivity. Defined.

Lemma fits_int_uint16_t : fits_int uint16_t.
Proof. right; left; reflexivity. Defined.

Lemma nine_bits_wf : wf uint8_t nine_bits.
Proof.
  repeat split; cbn; try lia. repeat constructor; cbn; lia.
Defined.

(** [seventeen_bits] is built by the constructor, [set_all] and four
    [clear]s. *)
Lemma seventeen_bits_reachable : reachable uint8_t seventeen_bits.
Proof.
  apply (reach_clear uint8_t {| blocks := [255; 31; 128]; bits := 17 |} 11);
    [| cbn; lia | reflexivity].
  apply (reach_clear uint8_t {| blocks := [255; 63; 128]; bits := 17 |} 10);
    [| cbn; lia | reflexivity].
  apply (reach_clear uint8_t {| blocks := [255; 127; 128]; bits := 17 |} 9);
    [| cbn; lia | reflexivity].
  apply (reach_clear uint8_t {| blocks := [255; 255; 128]; bits := 17 |} 8);
    [| cbn; lia | reflexivity].
  apply (reach_set_all uint8_t {| blocks := [0; 0; 0]; bits := 17 |});
    [| reflexivity].
  apply (reach_construct uint8_t (fun _ => 0) 17); [lia | reflexivity].
Qed.

(** With 64-bit blocks [clear_all] stops at its first [clear(0)]. *)
Lemma clear_all_uint64_undefined b :
  0 < bits b -> clear_all uint64_t b = Undefined.
Proof.
  intros Hn. unfold clear_all.
  destruct (Z.to_nat (bits b)) as [| count] eqn:E; [lia |].
  cbn [for_loop]. unfold bind at 1. change (to_size_t 0) with 0.
  unfold clear, store.
  replace (block_bitmask uint64_t 0) with (@None Z) by reflexivity.
  now destruct (load _ _).
Qed.

(** * The claims *)

(** C1 says that forward iteration yields [size()] values, the [k]-th
    being [at(k)], for every bit array.  The class accepts 64-bit blocks,
    and there the code does not do that: the mask shifts the [int] literal
    [1], so constructing 64 bits is undefined at its first [clear(0)], and
    on a 64-bit buffer the first dereference of [begin()], like [at(0)],
    shifts by 63 and has no value. *)
Theorem forward_iteration_of_64_bit_blocks :
  (forall heap, construct uint64_t heap 64 = Undefined) /\
  wf uint64_t sixty_four_zeros /\
  Iterator.ne (begin_ sixty_four_zeros) (end_ uint64_t sixty_four_zeros) = true /\
  Iterator.deref uint64_t (blocks sixty_four_zeros) (begin_ sixty_four_zeros) = None /\
  (forall fuel, forward_iteration uint64_t (S fuel) sixty_four_zeros = Stuck) /\
  at_ uint64_t 0 sixty_four_zeros = Undefined.
Proof.
  split; [intros heap; apply clear_all_uint64_undefined; cbn; lia |].
  split; [repeat split; cbn; try lia; repeat constructor; cbn; lia |].
  repeat split; reflexivity.
Qed.

(** C3 says that constructing with any [n >= 0] bits gives an array of
    size [n] whose bits read as cleared.  With 64-bit blocks, which the
    class accepts, the constructor returns no array at all for [n >= 1]:
    its first [clear(0)] shifts the [int] literal [1] by 63, which is
    undefined. *)
Theorem construct_of_64_bit_blocks :
  power_of_2_size uint64_t = true /\
  block_bitmask uint64_t 0 = None /\
  (forall heap, construct uint64_t heap 1 = Undefined) /\
  (forall heap, construct uint64_t heap 64 = Undefined) /\
  (forall heap, construct uint64_t heap 65 = Undefined).
Proof.
  split; [reflexivity |]. split; [reflexivity |].
  repeat split; intros heap; apply clear_all_uint64_undefined; cbn; lia.
Qed.



(** C6 says that [set(i)] followed by [at(i)] returns true and [clear(i)]
    followed by [at(i)] false, for every bit array and valid index.  With
    64-bit blocks, which the class accepts, [set(0)], [clear(0)] and [at(0)]
    shift the [int] literal [1] by 63 and are undefined, as they are at
    every offset below 32. *)
Theorem set_clear_of_64_bit_blocks :
  wf uint64_t sixty_four_zeros /\
  accessible sixty_four_zeros 0 = true /\
  set uint64_t 0 sixty_four_zeros = Undefined /\
  clear uint64_t 0 sixty_four_zeros = Undefined /\
  at_ uint64_t 0 sixty_four_zeros = Undefined /\
  (set uint64_t 0 ;> at_ uint64_t 0) sixty_four_zeros = Undefined /\
  set uint64_t 31 sixty_four_zeros = Undefined /\
  clear uint64_t 31 sixty_four_zeros = Undefined.
Proof.
  split; [repeat split; cbn; try lia; repeat constructor; cbn; lia |].
  repeat split; reflexivity.
Qed.

(** C7 says that [set(i)] and [clear(i)] change at most bit [i], for every
    valid index.  With 64-bit blocks, which the class accepts, the mask of
    index 32 is [0xFFFFFFFF80000000]: [set(32)] on an all-zero block also
    sets the thirty-two bits 0..31, and [clear(32)] on an all-one block
    also clears them. *)
Theorem writes_of_64_bit_blocks_touch_other_bits :
  wf uint64_t sixty_four_zeros /\ wf uint64_t sixty_four_ones /\
  set uint64_t 32 sixty_four_zeros =
    Ok tt {| blocks := [18446744071562067968]; bits := 64 |} /\
  clear uint64_t 32 sixty_four_ones =
    Ok tt {| blocks := [2147483647]; bits := 64 |} /\
  phys_bit uint64_t (blocks sixty_four_zeros) 0 = false /\
  phys_bit uint64_t [18446744071562067968] 0 = true /\
  phys_bit uint64_t (blocks sixty_four_zeros) 31 = false /\
  phys_bit uint64_t [18446744071562067968] 31 = true /\
  phys_bit uint64_t (blocks sixty_four_ones) 0 = true /\
  phys_bit uint64_t [2147483647] 0 = false.
Proof.
  split; [repeat split; cbn; try lia; repeat constructor; cbn; lia |].
  split; [repeat split; cbn; try lia; repeat constructor; cbn; lia |].
  repeat split; reflexivity.
Qed.

(** C8 says that at creation every allocated block equals zero, padding
    bits included, and the constructor's own comment says that the size is
    rounded up and that all bits are initialised to the cleared state.  The
    code does not do that: the blocks come from [new block_type[...]], which
    does not initialise them, and the constructor then clears only the bits
    below [num_bits].  One bit requested from storage that held [0xFF] leaves
    the block [0x7F]. *)
Lemma construct_keeps_allocation_padding :
  exists b,
    construct uint8_t (fun _ => 255) 1 = Ok tt b /\
    blocks b = [127] /\
    ~ Forall (fun blk => blk = 0) (blocks b).
Proof.
  exists {| blocks := [127]; bits := 1 |}.
  split; [reflexivity |]. split; [reflexivity |].
  cbn [blocks]. intros H. inversion H as [| x l Hx Hl]. discriminate.
Qed.

(** C9.  An array constructed with size 0 has [begin() == end()] and
    [rbegin() == rend()], so a forward or reverse loop ends at its first
    test without a step or a dereference, and [at(0)] fails with the range
    error.  This holds for every block type. *)
Theorem empty_array_boundary T heap :
  exists b,
    construct T heap 0 = Ok tt b /\ size b = 0 /\
    begin_ b = end_ T b /\
    Iterator.eq (begin_ b) (end_ T b) = true /\
    Iterator.ne (begin_ b) (end_ T b) = false /\
    rbegin T b = rend T b /\
    ReverseIterator.eq (rbegin T b) (rend T b) = true /\
    ReverseIterator.ne (rbegin T b) (rend T b) = false /\
    (forall fuel, forward_iteration T (S fuel) b = Yields []) /\
    (forall fuel, reverse_iteration T (S fuel) b = Yields []) /\
    at_ T 0 b = Raise (range_error "index out of range") b.
Proof.
  exists {| blocks := []; bits := 0 |}.
  assert (Hc : block_count T 0 = 0).
  { unfold block_count. change (to_size_t 0) with 0.
    now rewrite Zdiv_0_l, Zmod_0_l. }
  assert (Hb : begin_ {| blocks := []; bits := 0 |} = end_ T {| blocks := []; bits := 0 |}).
  { unfold begin_, end_. cbn [bits]. change (to_size_t 0) with 0.
    now rewrite Zdiv_0_l, Zmod_0_l. }
  assert (Hr : rbegin T {| blocks := []; bits := 0 |} = rend T {| blocks := []; bits := 0 |}).
  { unfold rbegin, rend. cbn [bits]. change (to_size_t 0) with 0.
    now rewrite Zdiv_0_l, Zmod_0_l. }
  assert (Heq : forall it, Iterator.ne it it = false).
  { intros it. unfold Iterator.ne. now rewrite !Z.eqb_refl. }
  assert (Hreq : forall it, ReverseIterator.ne it it = false).
  { intros it. unfold ReverseIterator.ne. now rewrite !Z.eqb_refl. }
  split; [| split; [reflexivity |]].
  { unfold construct. rewrite Hc. reflexivity. }
  split; [exact Hb |]. rewrite <- Hb.
  split; [unfold Iterator.eq; now rewrite !Z.eqb_refl |].
  split; [apply Heq |].
  split; [exact Hr |]. rewrite <- Hr.
  split; [unfold ReverseIterator.eq; now rewrite !Z.eqb_refl |].
  split; [apply Hreq |].
  split; [| split].
  - intros fuel. unfold forward_iteration. rewrite <- Hb.
    cbn [forward_loop]. now rewrite Heq.
  - intros fuel. unfold reverse_iteration. rewrite <- Hr.
    cbn [reverse_loop]. now rewrite Hreq.
  - reflexivity.
Qed.

(** C10.  The reverse cursor's constructor ignores its third argument: for
    the same pointer and raw offset any two bit counts give equal cursors,
    hence equal cursors after any number of steps and equal dereferences. *)
Theorem reverse_ctor_ignores_bit_count T p o n1 n2 :
  ReverseIterator.ctor T p o n1 = ReverseIterator.ctor T p o n2 /\
  ReverseIterator.eq (ReverseIterator.ctor T p o n1)
                     (ReverseIterator.ctor T p o n2) = true /\
  forall mem steps,
    Nat.iter steps (ReverseIterator.incr T) (ReverseIterator.ctor T p o n1) =
    Nat.iter steps (ReverseIterator.incr T) (ReverseIterator.ctor T p o n2) /\
    ReverseIterator.deref T mem
      (Nat.iter steps (ReverseIterator.incr T) (ReverseIterator.ctor T p o n1)) =
    ReverseIterator.deref T mem
      (Nat.iter steps (ReverseIterator.incr T) (ReverseIterator.ctor T p o n2)).
Proof.
  assert (E : ReverseIterator.ctor T p o n1 = ReverseIterator.ctor T p o n2)
    by reflexivity.
  split; [exact E |]. split.
  - rewrite E. unfold ReverseIterator.eq. now rewrite !Z.eqb_refl.
  - intros mem steps. now rewrite E.
Qed.

(** C2 says that reverse iteration yields [size()] booleans in the reverse
    of the forward order, the constructor stepping to the previous block
    when its raw offset is negative.  The code does not do that: the
    constructor's [ptr--] decrements its parameter, so the cursor keeps the
    block it was given.  [rend()] is therefore [(blocks, 7)] instead of
    [(blocks - 1, 7)] for 8-bit blocks; seventeen bits yield nine values
    (bit 16, then bits 15 down to 8), and twenty-four bits, the array of
    [main.cpp], start at [blocks + 3], outside the buffer. *)
Theorem reverse_ctor_keeps_its_block :
  (forall T p n,
     ReverseIterator.ctor T p (-1) n =
       {| ReverseIterator.ptr := p;
          ReverseIterator.current_idx :=
            to_long_long (to_size_t (bits_per_block T - 1)) |}) /\
  (reachable uint8_t seventeen_bits /\
   rbegin uint8_t seventeen_bits =
     {| ReverseIterator.ptr := 2; ReverseIterator.current_idx := 0 |} /\
   rend uint8_t seventeen_bits =
     {| ReverseIterator.ptr := 0; ReverseIterator.current_idx := 7 |} /\
   forward_iteration uint8_t 18 seventeen_bits =
     Yields [true; true; true; true; true; true; true; true;
             false; false; false; false; true; true; true; true; true] /\
   reverse_iteration uint8_t 18 seventeen_bits =
     Yields [true; true; true; true; true; false; false; false; false]) /\
  (construct uint8_t (fun _ => 0) 24 = Ok tt {| blocks := [0; 0; 0]; bits := 24 |} /\
   set_all uint8_t {| blocks := [0; 0; 0]; bits := 24 |} = Ok tt twenty_four_ones /\
   rbegin uint8_t twenty_four_ones =
     {| ReverseIterator.ptr := 3; ReverseIterator.current_idx := 7 |} /\
   load (blocks twenty_four_ones) 3 = None /\
   forall fuel, reverse_iteration uint8_t (S fuel) twenty_four_ones = Stuck).
Proof.
  split; [reflexivity |]. split.
  - split; [exact seventeen_bits_reachable | repeat split; reflexivity].
  - repeat split; reflexivity.
Qed.

(** C5 says that for every supported block width, 64 included, the mask of
    bit [i] is [2^(block_width - (i mod block_width) - 1)].  The class
    accepts a 64-bit block type, but the mask is computed by shifting the
    [int] literal [1]: for a 64-bit block the shift count is 31 at offset
    32, where [1 << 31] is [INT_MIN] and converts to [0xFFFFFFFF80000000],
    and exceeds the width of [int] at every offset below 32. *)
Theorem block_bitmask_of_64_bit_blocks :
  power_of_2_size uint64_t = true /\
  bits_per_block uint64_t = 64 /\
  block_bitmask uint64_t 32 = Some 18446744071562067968 /\
  block_bitmask uint64_t 32 <> Some (2 ^ (64 - 32 mod 64 - 1)) /\
  block_bitmask uint64_t 0 = None /\
  block_bitmask uint64_t 31 = None /\
  set uint64_t 32 {| blocks := [0]; bits := 64 |} =
    Ok tt {| blocks := [18446744071562067968]; bits := 64 |}.
Proof.
  repeat split; try reflexivity. discriminate.
Qed.

(** * Further properties of the code *)

(** ** The container on 8-, 16- and 32-bit blocks *)

(** X22.  On a live array of 8-, 16- or 32-bit blocks, forward iteration
    from [begin] to [end] yields exactly [size()] booleans in index order,
    the [k]-th being what [at(k)] returns; and advancing [begin] [size()]
    times gives exactly [end]. *)
Theorem forward_iteration_visits_every_bit T b :
  fits_int T -> wf T b ->
  begin_ b = {| Iterator.ptr := 0; Iterator.current_idx := 0 |} /\
  end_ T b = {| Iterator.ptr := size b / bits_per_block T;
                Iterator.current_idx := size b mod bits_per_block T |} /\
  Nat.iter (Z.to_nat (size b)) (Iterator.incr T) (begin_ b) = end_ T b /\
  exists l,
    (forall fuel, (Z.to_nat (size b) < fuel)%nat ->
                  forward_iteration T fuel b = Yields l) /\
    Z.of_nat (length l) = size b /\
    forall k, 0 <= k < size b ->
      exists v, l !! Z.to_nat k = Some v /\ at_ T k b = Ok v b.
Proof.
  intros HT Hwf. rewrite (size_bits T b Hwf).
  assert (Hn : 0 <= bits b < 2 ^ 63) by apply Hwf.
  split; [reflexivity |]. split; [now apply end_pos |]. split.
  - rewrite (begin_pos T), iter_incr_pos, (end_pos T) by assumption.
    now rewrite Z2Nat.id by lia.
  - exists (phys_bit T (blocks b) <$> seqZ 0 (bits b)). split; [| split].
    + intros fuel Hfuel. unfold forward_iteration.
      rewrite (begin_pos T), (end_pos T) by assumption.
      rewrite (forward_loop_spec T b HT Hwf (Z.to_nat (bits b)) 0 fuel) by lia.
      now rewrite Z2Nat.id by lia.
    + rewrite length_fmap, length_seqZ. lia.
    + intros k Hk. exists (phys_bit T (blocks b) k). split.
      * rewrite list_lookup_fmap, lookup_seqZ_lt by lia.
        cbn. f_equal. f_equal. lia.
      * now apply at_in_range.
Qed.

Lemma forward_iteration_visits_every_bit_witness :
  fits_int uint8_t /\ wf uint8_t nine_bits /\
  begin_ nine_bits = {| Iterator.ptr := 0; Iterator.current_idx := 0 |} /\
  end_ uint8_t nine_bits =
    {| Iterator.ptr := size nine_bits / bits_per_block uint8_t;
       Iterator.current_idx := size nine_bits mod bits_per_block uint8_t |} /\
  Nat.iter (Z.to_nat (size nine_bits)) (Iterator.incr uint8_t) (begin_ nine_bits)
    = end_ uint8_t nine_bits /\
  exists l,
    (forall fuel, (Z.to_nat (size nine_bits) < fuel)%nat ->
                  forward_iteration uint8_t fuel nine_bits = Yields l) /\
    Z.of_nat (length l) = size nine_bits /\
    forall k, 0 <= k < size nine_bits ->
      exists v, l !! Z.to_nat k = Some v /\ at_ uint8_t k nine_bits = Ok v nine_bits.
Proof.
  split; [exact fits_int_uint8_t |]. split; [exact nine_bits_wf |].
  exact (forward_iteration_visits_every_bit uint8_t nine_bits
           fits_int_uint8_t nine_bits_wf).
Defined.

(** X23.  With 8-, 16- or 32-bit blocks, constructing with [n >= 0] bits
    allocates [ceil(n / block_width)] blocks, records [size() == n], and
    afterwards every index [i < n] reads as cleared through [at] and through
    [operator[]], whatever the allocation held. *)
Theorem construct_allocates_and_clears T heap n :
  fits_int T -> 0 <= n < 2 ^ 63 ->
  exists b,
    construct T heap n = Ok tt b /\
    Z.of_nat (length (blocks b)) = ceil_div n (bits_per_block T) /\
    size b = n /\
    forall i, 0 <= i < n ->
      at_ T i b = Ok false b /\ subscript T b i = Some false.
Proof.
  intros HT Hn.
  destruct (construct_spec T heap n HT Hn) as (b & E & Hwf & Hb & Hp).
  exists b. split; [exact E |]. split; [| split].
  - destruct Hwf as (_ & Hlen & _). now rewrite Hlen, Hb.
  - now rewrite (size_bits T b Hwf).
  - intros i Hi.
    assert (Hz : phys_bit T (blocks b) i = false).
    { rewrite Hp. compare_cases. }
    split.
    + rewrite at_in_range by (auto; lia). now rewrite Hz.
    + unfold subscript. rewrite bit_at_phys by (auto; lia). now rewrite Hz.
Qed.

Lemma construct_allocates_and_clears_witness :
  fits_int uint16_t /\ 0 <= 17 < 2 ^ 63 /\
  exists b,
    construct uint16_t (fun k => 43690 + Z.of_nat k) 17 = Ok tt b /\
    Z.of_nat (length (blocks b)) = ceil_div 17 (bits_per_block uint16_t) /\
    size b = 17 /\
    forall i, 0 <= i < 17 ->
      at_ uint16_t i b = Ok false b /\ subscript uint16_t b i = Some false.
Proof.
  assert (Hn : 0 <= 17 < 2 ^ 63) by lia.
  split; [exact fits_int_uint16_t |]. split; [exact Hn |].
  exact (construct_allocates_and_clears uint16_t _ 17 fits_int_uint16_t Hn).
Defined.

(** X24.  On a live array of 8-, 16- or 32-bit blocks and for a valid
    index [i], [set(i)] followed by [at(i)] returns true, [clear(i)]
    followed by [at(i)] returns false, and a second [set(i)] (or [clear(i)])
    leaves the array exactly as the first one did. *)
Theorem set_clear_read_back T b i :
  fits_int T -> wf T b -> 0 <= i < size b ->
  (exists b1,
     set T i b = Ok tt b1 /\ at_ T i b1 = Ok true b1 /\ set T i b1 = Ok tt b1 /\
     exists b2, clear T i b1 = Ok tt b2 /\ at_ T i b2 = Ok false b2) /\
  (exists b2,
     clear T i b = Ok tt b2 /\ at_ T i b2 = Ok false b2 /\ clear T i b2 = Ok tt b2).
Proof.
  intros HT Hwf Hi. rewrite (size_bits T b Hwf) in Hi. split.
  - destruct (set_spec T b i HT Hwf Hi) as (b1 & E1 & Hwf1 & Hb1 & Hp1).
    exists b1. split; [exact E1 |]. split; [| split].
    + rewrite at_in_range by (auto; lia). rewrite Hp1, Z.eqb_refl. reflexivity.
    + destruct (set_spec T b1 i HT Hwf1 ltac:(lia)) as (b1' & E1' & Hwf1' & Hb1' & Hp1').
      rewrite E1'. f_equal. apply (phys_bit_ext T); auto.
      intros p. rewrite Hp1'. destruct (Z.eqb_spec p i) as [-> | _]; [| reflexivity].
      rewrite Hp1, Z.eqb_refl. reflexivity.
    + destruct (clear_spec T b1 i HT Hwf1 ltac:(lia)) as (b2 & E2 & Hwf2 & Hb2 & Hp2).
      exists b2. split; [exact E2 |].
      rewrite at_in_range by (auto; lia). rewrite Hp2, Z.eqb_refl. reflexivity.
  - destruct (clear_spec T b i HT Hwf Hi) as (b2 & E2 & Hwf2 & Hb2 & Hp2).
    exists b2. split; [exact E2 |]. split.
    + rewrite at_in_range by (auto; lia). rewrite Hp2, Z.eqb_refl. reflexivity.
    + destruct (clear_spec T b2 i HT Hwf2 ltac:(lia)) as (b2' & E2' & Hwf2' & Hb2' & Hp2').
      rewrite E2'. f_equal. apply (phys_bit_ext T); auto.
      intros p. rewrite Hp2'. destruct (Z.eqb_spec p i) as [-> | _]; [| reflexivity].
      rewrite Hp2, Z.eqb_refl. reflexivity.
Qed.

Lemma set_clear_read_back_witness :
  fits_int uint8_t /\ wf uint8_t nine_bits /\ 0 <= 8 < size nine_bits /\
  (exists b1,
     set uint8_t 8 nine_bits = Ok tt b1 /\ at_ uint8_t 8 b1 = Ok true b1 /\
     set uint8_t 8 b1 = Ok tt b1 /\
     exists b2, clear uint8_t 8 b1 = Ok tt b2 /\ at_ uint8_t 8 b2 = Ok false b2) /\
  (exists b2,
     clear uint8_t 8 nine_bits = Ok tt b2 /\ at_ uint8_t 8 b2 = Ok false b2 /\
     clear uint8_t 8 b2 = Ok tt b2).
Proof.
  assert (Hi : 0 <= 8 < size nine_bits) by (vm_compute; split; congruence).
  split; [exact fits_int_uint8_t |]. split; [exact nine_bits_wf |].
  split; [exact Hi |].
  exact (set_clear_read_back uint8_t nine_bits 8 fits_int_uint8_t nine_bits_wf Hi).
Defined.

(** X25.  On a live array of 8-, 16- or 32-bit blocks, [set(i)] and
    [clear(i)] change no bit other than [i]; [set_all()] and [clear_all()]
    set/clear exactly the bits in [0, size()) and leave the padding bits of
    the last block as they were.  With 8-bit blocks and 24 bits: after
    [set_all()] and [clear(0)] the checked accessor reads
    [011111111111111111111111], and [set(0)] gives all ones again. *)
Theorem writes_touch_only_their_bits T b :
  fits_int T -> wf T b ->
  (forall i, 0 <= i < size b ->
     exists b1 b2,
       set T i b = Ok tt b1 /\ clear T i b = Ok tt b2 /\
       (forall p, p <> i ->
          phys_bit T (blocks b1) p = phys_bit T (blocks b) p /\
          phys_bit T (blocks b2) p = phys_bit T (blocks b) p) /\
       (forall j, 0 <= j < size b -> j <> i ->
          exists v, at_ T j b = Ok v b /\ at_ T j b1 = Ok v b1 /\ at_ T j b2 = Ok v b2)) /\
  (exists b1 b2,
     set_all T b = Ok tt b1 /\ clear_all T b = Ok tt b2 /\
     (forall i, 0 <= i < size b ->
        at_ T i b1 = Ok true b1 /\ at_ T i b2 = Ok false b2) /\
     (forall p, size b <= p ->
        phys_bit T (blocks b1) p = phys_bit T (blocks b) p /\
        phys_bit T (blocks b2) p = phys_bit T (blocks b) p)) /\
  (forall heap, exists b0 b1 b2,
     construct uint8_t heap 24 = Ok tt b0 /\
     set_all uint8_t b0 = Ok tt b1 /\
     clear uint8_t 0 b1 = Ok tt b2 /\
     read_all uint8_t b2 =
       Ok [false; true; true; true; true; true; true; true;
           true; true; true; true; true; true; true; true;
           true; true; true; true; true; true; true; true] b2 /\
     set uint8_t 0 b2 = Ok tt b1 /\
     read_all uint8_t b1 =
       Ok [true; true; true; true; true; true; true; true;
           true; true; true; true; true; true; true; true;
           true; true; true; true; true; true; true; true] b1).
Proof.
  intros HT Hwf. rewrite (size_bits T b Hwf). split; [| split].
  - intros i Hi.
    destruct (set_spec T b i HT Hwf Hi) as (b1 & E1 & Hwf1 & Hb1 & Hp1).
    destruct (clear_spec T b i HT Hwf Hi) as (b2 & E2 & Hwf2 & Hb2 & Hp2).
    exists b1, b2. split; [exact E1 |]. split; [exact E2 |]. split.
    + intros p Hne. rewrite Hp1, Hp2.
      destruct (Z.eqb_spec p i); [contradiction | now split].
    + intros j Hj Hne. exists (phys_bit T (blocks b) j).
      rewrite !at_in_range by (auto; lia). rewrite Hp1, Hp2.
      destruct (Z.eqb_spec j i); [contradiction | now repeat split].
  - destruct (set_all_spec T b HT Hwf) as (b1 & E1 & Hwf1 & Hb1 & Hp1).
    destruct (clear_all_spec T b HT Hwf) as (b2 & E2 & Hwf2 & Hb2 & Hp2).
    exists b1, b2. split; [exact E1 |]. split; [exact E2 |]. split.
    + intros i Hi. rewrite !at_in_range by (auto; lia). rewrite Hp1, Hp2.
      replace ((0 <=? i) && (i <? bits b)) with true; [now split |].
      symmetry. apply andb_true_iff. split; [apply Z.leb_le | apply Z.ltb_lt]; lia.
    + intros p Hp. rewrite Hp1, Hp2.
      replace ((0 <=? p) && (p <? bits b)) with false; [now split |].
      symmetry. apply andb_false_iff. right. apply Z.ltb_ge. lia.
  - intros heap. pose proof fits_int_uint8_t as H8.
    destruct (construct_spec uint8_t heap 24 H8 ltac:(lia)) as (b0 & E0 & Hwf0 & Hb0 & Hp0).
    destruct (set_all_spec uint8_t b0 H8 Hwf0) as (b1 & E1 & Hwf1 & Hb1 & Hp1).
    destruct (clear_spec uint8_t b1 0 H8 Hwf1 ltac:(lia)) as (b2 & E2 & Hwf2 & Hb2 & Hp2).
    destruct (set_spec uint8_t b2 0 H8 Hwf2 ltac:(lia)) as (b3 & E3 & Hwf3 & Hb3 & Hp3).
    assert (E31 : b3 = b1).
    { apply (phys_bit_ext uint8_t); auto; [congruence |].
      intros p. rewrite Hp3, Hp2, Hp1.
      destruct (Z.eqb_spec p 0) as [-> | _]; [| reflexivity].
      rewrite Hb0. reflexivity. }
    subst b3. exists b0, b1, b2.
    rewrite !read_all_spec by assumption.
    rewrite Hb2, Hb1, Hb0.
    let l := eval vm_compute in (seqZ 0 24) in change (seqZ 0 24) with l.
    cbn [fmap list_fmap]. rewrite !Hp2, !Hp1, Hb0.
    repeat split; try assumption; reflexivity.
Qed.

Lemma writes_touch_only_their_bits_witness :
  fits_int uint8_t /\ wf uint8_t nine_bits /\
  (forall i, 0 <= i < size nine_bits ->
     exists b1 b2,
       set uint8_t i nine_bits = Ok tt b1 /\ clear uint8_t i nine_bits = Ok tt b2 /\
       (forall p, p <> i ->
          phys_bit uint8_t (blocks b1) p = phys_bit uint8_t (blocks nine_bits) p /\
          phys_bit uint8_t (blocks b2) p = phys_bit uint8_t (blocks nine_bits) p) /\
       (forall j, 0 <= j < size nine_bits -> j <> i ->
          exists v, at_ uint8_t j nine_bits = Ok v nine_bits /\
                    at_ uint8_t j b1 = Ok v b1 /\ at_ uint8_t j b2 = Ok v b2)).
Proof.
  split; [exact fits_int_uint8_t |]. split; [exact nine_bits_wf |].
  exact (proj1 (writes_touch_only_their_bits uint8_t nine_bits
                  fits_int_uint8_t nine_bits_wf)).
Defined.

(** X26.  With 8-, 16- or 32-bit blocks the constructor allocates
    [ceil(bits / block_width)] blocks and clears every bit below [bits], so
    every block that lies wholly below [bits] equals zero; the padding bits
    of a partially-filled final block keep the value the fresh allocation
    held. *)
Theorem construct_clears_logical_bits T heap n :
  fits_int T -> 0 <= n < 2 ^ 63 ->
  exists b,
    construct T heap n = Ok tt b /\
    Z.of_nat (length (blocks b)) = ceil_div n (bits_per_block T) /\
    (forall p, 0 <= p < n -> phys_bit T (blocks b) p = false) /\
    (forall p, n <= p ->
       phys_bit T (blocks b) p =
       phys_bit T (new_array T heap (block_count T n)) p) /\
    (forall k blk,
       blocks b !! k = Some blk ->
       (Z.of_nat k + 1) * bits_per_block T <= n -> blk = 0).
Proof.
  intros HT Hn.
  destruct (construct_spec T heap n HT Hn) as (b & E & Hwf & Hb & Hp).
  pose proof (fits_int_pos T HT) as Hw.
  exists b. split; [exact E |]. split; [| split; [| split]].
  - destruct Hwf as (_ & Hlen & _). now rewrite Hlen, Hb.
  - intros p Hlt. rewrite Hp. compare_cases.
  - intros p Hge. rewrite Hp. compare_cases.
  - intros k blk Hk Hfull.
    destruct Hwf as (_ & _ & Hall). rewrite Forall_lookup in Hall.
    apply (block_ext (bits_per_block T)); [lia | eauto | |].
    { split; [lia | apply Z.pow_pos_nonneg; lia]. }
    intros j Hj. rewrite Z.bits_0.
    specialize (Hp (Z.of_nat k * bits_per_block T + (bits_per_block T - 1 - j))).
    unfold phys_bit at 1 in Hp.
    replace ((Z.of_nat k * bits_per_block T + (bits_per_block T - 1 - j)) / bits_per_block T)
      with (Z.of_nat k) in Hp by (width T HT; divmod).
    replace ((Z.of_nat k * bits_per_block T + (bits_per_block T - 1 - j)) mod bits_per_block T)
      with (bits_per_block T - 1 - j) in Hp by (width T HT; divmod).
    rewrite load_lookup, Nat2Z.id, Hk in Hp by lia.
    replace (bits_per_block T - 1 - (bits_per_block T - 1 - j)) with j in Hp by lia.
    rewrite Hp.
    replace ((0 <=? Z.of_nat k * bits_per_block T + (bits_per_block T - 1 - j))
             && (Z.of_nat k * bits_per_block T + (bits_per_block T - 1 - j) <? n))
      with true; [reflexivity |].
    symmetry. apply andb_true_iff. split; [apply Z.leb_le | apply Z.ltb_lt]; nia.
Qed.

Lemma construct_clears_logical_bits_witness :
  fits_int uint8_t /\ 0 <= 9 < 2 ^ 63 /\
  exists b,
    construct uint8_t (fun _ => 255) 9 = Ok tt b /\
    Z.of_nat (length (blocks b)) = ceil_div 9 (bits_per_block uint8_t) /\
    (forall p, 0 <= p < 9 -> phys_bit uint8_t (blocks b) p = false) /\
    (forall p, 9 <= p ->
       phys_bit uint8_t (blocks b) p =
       phys_bit uint8_t (new_array uint8_t (fun _ => 255) (block_count uint8_t 9)) p) /\
    (forall k blk,
       blocks b !! k = Some blk ->
       (Z.of_nat k + 1) * bits_per_block uint8_t <= 9 -> blk = 0).
Proof.
  assert (Hn : 0 <= 9 < 2 ^ 63) by lia.
  split; [exact fits_int_uint8_t |]. split; [exact Hn |].
  exact (construct_clears_logical_bits uint8_t _ 9 fits_int_uint8_t Hn).
Defined.

(** ** Sizing *)

(** X1.  The block count the constructor allocates is the least one whose
    blocks hold [num_bits] bits: [num_bits <= count * width < num_bits + width],
    for any positive block width. *)
Theorem block_count_is_minimal T n :
  0 < bits_per_block T -> 0 <= n < 2 ^ 63 ->
  0 <= block_count T n /\
  n <= block_count T n * bits_per_block T < n + bits_per_block T /\
  (n mod bits_per_block T = 0 -> block_count T n * bits_per_block T = n).
Proof.
  intros Hw Hn. unfold block_count. rewrite to_size_t_small by lia.
  pose proof (Z.div_mod n (bits_per_block T) ltac:(lia)) as Hdm.
  pose proof (Z.mod_pos_bound n (bits_per_block T) Hw) as Hr.
  assert (Hq : 0 <= n / bits_per_block T) by (apply Z.div_pos; lia).
  set (q := n / bits_per_block T) in *. set (r := n mod bits_per_block T) in *.
  clearbody q r.
  destruct (Z.eqb_spec r 0) as [E | E]; (split; [lia | split; [nia | intros E'; nia]]).
Qed.

Lemma block_count_is_minimal_witness :
  0 < bits_per_block uint16_t /\ 0 <= 17 < 2 ^ 63 /\
  block_count uint16_t 17 = 2 /\
  17 <= block_count uint16_t 17 * bits_per_block uint16_t
     < 17 + bits_per_block uint16_t.
Proof.
  assert (Hw : 0 < bits_per_block uint16_t) by (vm_compute; reflexivity).
  assert (Hn : 0 <= 17 < 2 ^ 63) by lia.
  split; [exact Hw |]. split; [exact Hn |]. split; [reflexivity |].
  exact (proj1 (proj2 (block_count_is_minimal uint16_t 17 Hw Hn))).
Defined.

(** ** Mutators never resize *)

Lemma store_keeps_shape T i f b b' :
  store T i f b = Ok tt b' ->
  bits b' = bits b /\ length (blocks b') = length (blocks b).
Proof.
  unfold store. destruct (load (blocks b) (i / bits_per_block T)); [| discriminate].
  destruct (block_bitmask T i); [| discriminate].
  intros E. inversion E. cbn [bits blocks]. now rewrite length_insert.
Qed.

Lemma for_loop_keeps_shape body :
  (forall i b b', body i b = Ok tt b' ->
                  bits b' = bits b /\ length (blocks b') = length (blocks b)) ->
  forall count i b b',
    for_loop count i body b = Ok tt b' ->
    bits b' = bits b /\ length (blocks b') = length (blocks b).
Proof.
  intros Hbody. induction count as [| count IH]; intros i b b' E.
  - inversion E. now split.
  - cbn [for_loop] in E. unfold bind at 1 in E.
    destruct (body i b) as [[] b1 | e1 b1 |] eqn:E1; try discriminate.
    destruct (Hbody _ _ _ E1) as [Hb Hl]. destruct (IH _ _ _ E) as [Hb' Hl'].
    split; congruence.
Qed.

(** X2.  No sequence of [set], [clear], [set_all] and [clear_all] calls,
    at whatever indices, changes [size()] or the number of blocks: whenever
    the calls return, the array has the bit count and the block count it
    started with. *)
Theorem mutators_never_resize T b b' :
  evolves T b b' ->
  bits b' = bits b /\ size b' = size b /\
  length (blocks b') = length (blocks b).
Proof.
  induction 1 as [b | b b1 b2 _ IH Hm].
  - now repeat split.
  - destruct IH as (Hb & Hs & Hl).
    assert (Hstep : bits b2 = bits b1 /\ length (blocks b2) = length (blocks b1)).
    { destruct Hm as [i b1 b2 E | i b1 b2 E | b1 b2 E | b1 b2 E].
      - exact (store_keeps_shape _ _ _ _ _ E).
      - exact (store_keeps_shape _ _ _ _ _ E).
      - unfold set_all in E. revert E. apply for_loop_keeps_shape.
        intros j s s'. apply store_keeps_shape.
      - unfold clear_all in E. revert E. apply for_loop_keeps_shape.
        intros j s s'. apply store_keeps_shape. }
    destruct Hstep as [Hb2 Hl2]. unfold size in *.
    repeat split; congruence.
Qed.

Lemma mutators_never_resize_witness :
  evolves uint8_t nine_bits {| blocks := [255; 0]; bits := 9 |} /\
  bits {| blocks := [255; 0]; bits := 9 |} = bits nine_bits /\
  size {| blocks := [255; 0]; bits := 9 |} = size nine_bits /\
  length (blocks {| blocks := [255; 0]; bits := 9 |}) = length (blocks nine_bits).
Proof.
  assert (H : evolves uint8_t nine_bits {| blocks := [255; 0]; bits := 9 |}).
  { apply (evolves_step uint8_t _ {| blocks := [255; 128]; bits := 9 |}).
    - apply (evolves_step uint8_t _ nine_bits); [apply evolves_refl |].
      apply mut_set_all. reflexivity.
    - apply (mut_clear uint8_t 8). reflexivity. }
  split; [exact H |].
  exact (mutators_never_resize uint8_t _ _ H).
Defined.

(** ** Cursor comparison and the read-only entry points *)

(** X3.  For both cursor classes [operator==] holds exactly of equal
    cursors (same block, same offset) and [operator!=] is its negation. *)
Theorem cursor_equality_is_consistent :
  (forall a b : Iterator.t,
     (Iterator.eq a b = true <-> a = b) /\
     Iterator.ne a b = negb (Iterator.eq a b)) /\
  (forall a b : ReverseIterator.t,
     (ReverseIterator.eq a b = true <-> a = b) /\
     ReverseIterator.ne a b = negb (ReverseIterator.eq a b)).
Proof.
  split.
  - intros [pa ia] [pb ib]. unfold Iterator.eq, Iterator.ne.
    cbn [Iterator.ptr Iterator.current_idx]. split.
    + rewrite andb_true_iff, !Z.eqb_eq. split.
      * intros [-> ->]. reflexivity.
      * intros E. inversion E. now split.
    + now rewrite negb_andb.
  - intros [pa ia] [pb ib]. unfold ReverseIterator.eq, ReverseIterator.ne.
    cbn [ReverseIterator.ptr ReverseIterator.current_idx]. split.
    + rewrite andb_true_iff, !Z.eqb_eq. split.
      * intros [-> ->]. reflexivity.
      * intros E. inversion E. now split.
    + now rewrite negb_andb.
Qed.

(** X4.  The read-only entry points give the same cursors as the others:
    [cbegin]/[cend] as [begin]/[end], [crend] as [rend], and [crbegin] as
    [rbegin] although it computes the offset [(bits % bits_per_block) - 1]
    at type [std::size_t], where it wraps to [2^64 - 1] for a full last
    block before the conversion to [long long] turns it into [-1]. *)
Theorem const_entry_points_agree T b :
  0 < bits_per_block T < 2 ^ 63 ->
  cbegin b = begin_ b /\ cend T b = end_ T b /\
  crbegin T b = rbegin T b /\ crend T b = rend T b.
Proof.
  intros Hw. repeat split. unfold crbegin, rbegin. f_equal.
  pose proof (Z.mod_pos_bound (to_size_t (bits b)) (bits_per_block T) ltac:(lia)) as Hr.
  rewrite (to_long_long_small (to_size_t (bits b) mod bits_per_block T)) by lia.
  destruct (Z.eq_dec (to_size_t (bits b) mod bits_per_block T) 0) as [-> | Hne].
  - reflexivity.
  - rewrite to_size_t_small by lia. apply to_long_long_small. lia.
Qed.

Lemma const_entry_points_agree_witness :
  0 < bits_per_block uint8_t < 2 ^ 63 /\
  crbegin uint8_t twenty_four_ones = rbegin uint8_t twenty_four_ones /\
  crbegin uint8_t nine_bits = rbegin uint8_t nine_bits.
Proof.
  assert (Hw : 0 < bits_per_block uint8_t < 2 ^ 63) by (vm_compute; split; reflexivity).
  split; [exact Hw |]. split.
  - exact (proj1 (proj2 (proj2 (const_entry_points_agree uint8_t twenty_four_ones Hw)))).
  - exact (proj1 (proj2 (proj2 (const_entry_points_agree uint8_t nine_bits Hw)))).
Defined.

(** ** Stepping a cursor back and forth *)

(** X5.  On a forward cursor whose offset lies inside a block, [operator--]
    undoes [operator++] and [operator++] undoes [operator--], and both keep
    the offset inside a block; this holds for every positive block width. *)
Theorem forward_cursor_steps_invert T it :
  0 < bits_per_block T < 2 ^ 63 ->
  0 <= Iterator.current_idx it < bits_per_block T ->
  Iterator.decr T (Iterator.incr T it) = it /\
  Iterator.incr T (Iterator.decr T it) = it /\
  0 <= Iterator.current_idx (Iterator.incr T it) < bits_per_block T /\
  0 <= Iterator.current_idx (Iterator.decr T it) < bits_per_block T.
Proof.
  intros Hw Hi. destruct it as [p i]. cbn [Iterator.current_idx] in Hi.
  unfold Iterator.incr, Iterator.decr. cbn [Iterator.ptr Iterator.current_idx].
  rewrite (to_size_t_small (i + 1)), (to_size_t_small (bits_per_block T - 1)) by lia.
  rewrite to_long_long_small by lia.
  destruct (Z.ltb_spec (i + 1) (bits_per_block T)) as [Hlt | Hge];
    destruct (Z.eqb_spec i 0) as [Hz | Hz];
    cbn [Iterator.ptr Iterator.current_idx].
  - destruct (Z.eqb_spec (i + 1) 0); [lia |].
    rewrite (to_size_t_small (bits_per_block T - 1 + 1)) by lia.
    destruct (Z.ltb_spec (bits_per_block T - 1 + 1) (bits_per_block T)); [lia |].
    repeat split; try lia; f_equal; lia.
  - destruct (Z.eqb_spec (i + 1) 0); [lia |].
    rewrite (to_size_t_small (i - 1 + 1)) by lia.
    destruct (Z.ltb_spec (i - 1 + 1) (bits_per_block T)); [| lia].
    repeat split; try lia; f_equal; lia.
  - rewrite Z.eqb_refl.
    rewrite (to_size_t_small (bits_per_block T - 1 + 1)) by lia.
    destruct (Z.ltb_spec (bits_per_block T - 1 + 1) (bits_per_block T)); [lia |].
    repeat split; try lia; f_equal; lia.
  - rewrite Z.eqb_refl.
    rewrite (to_size_t_small (i - 1 + 1)) by lia.
    destruct (Z.ltb_spec (i - 1 + 1) (bits_per_block T)); [| lia].
    repeat split; try lia; f_equal; lia.
Qed.

Lemma forward_cursor_steps_invert_witness :
  0 < bits_per_block uint8_t < 2 ^ 63 /\
  0 <= Iterator.current_idx {| Iterator.ptr := 2; Iterator.current_idx := 7 |}
    < bits_per_block uint8_t /\
  Iterator.decr uint8_t
    (Iterator.incr uint8_t {| Iterator.ptr := 2; Iterator.current_idx := 7 |})
  = {| Iterator.ptr := 2; Iterator.current_idx := 7 |}.
Proof.
  assert (Hw : 0 < bits_per_block uint8_t < 2 ^ 63) by (vm_compute; split; reflexivity).
  assert (Hi : 0 <= Iterator.current_idx {| Iterator.ptr := 2; Iterator.current_idx := 7 |}
               < bits_per_block uint8_t) by (vm_compute; split; congruence).
  split; [exact Hw |]. split; [exact Hi |].
  exact (proj1 (forward_cursor_steps_invert uint8_t _ Hw Hi)).
Defined.

(** X6.  The same for the reverse cursor: [operator--] and [operator++]
    undo each other and keep the offset inside a block. *)
Theorem reverse_cursor_steps_invert T it :
  0 < bits_per_block T < 2 ^ 63 ->
  0 <= ReverseIterator.current_idx it < bits_per_block T ->
  ReverseIterator.decr T (ReverseIterator.incr T it) = it /\
  ReverseIterator.incr T (ReverseIterator.decr T it) = it /\
  0 <= ReverseIterator.current_idx (ReverseIterator.incr T it) < bits_per_block T /\
  0 <= ReverseIterator.current_idx (ReverseIterator.decr T it) < bits_per_block T.
Proof.
  intros Hw Hi. destruct it as [p i]. cbn [ReverseIterator.current_idx] in Hi.
  unfold ReverseIterator.incr, ReverseIterator.decr.
  cbn [ReverseIterator.ptr ReverseIterator.current_idx].
  rewrite (to_size_t_small (i + 1)), (to_size_t_small (bits_per_block T - 1)) by lia.
  rewrite to_long_long_small by lia.
  destruct (Z.ltb_spec (i + 1) (bits_per_block T)) as [Hlt | Hge];
    destruct (Z.eqb_spec i 0) as [Hz | Hz];
    cbn [ReverseIterator.ptr ReverseIterator.current_idx].
  - destruct (Z.eqb_spec (i + 1) 0); [lia |].
    rewrite (to_size_t_small (bits_per_block T - 1 + 1)) by lia.
    destruct (Z.ltb_spec (bits_per_block T - 1 + 1) (bits_per_block T)); [lia |].
    repeat split; try lia; f_equal; lia.
  - destruct (Z.eqb_spec (i + 1) 0); [lia |].
    rewrite (to_size_t_small (i - 1 + 1)) by lia.
    destruct (Z.ltb_spec (i - 1 + 1) (bits_per_block T)); [| lia].
    repeat split; try lia; f_equal; lia.
  - rewrite Z.eqb_refl.
    rewrite (to_size_t_small (bits_per_block T - 1 + 1)) by lia.
    destruct (Z.ltb_spec (bits_per_block T - 1 + 1) (bits_per_block T)); [lia |].
    repeat split; try lia; f_equal; lia.
  - rewrite Z.eqb_refl.
    rewrite (to_size_t_small (i - 1 + 1)) by lia.
    destruct (Z.ltb_spec (i - 1 + 1) (bits_per_block T)); [| lia].
    repeat split; try lia; f_equal; lia.
Qed.

Lemma reverse_cursor_steps_invert_witness :
  0 < bits_per_block uint16_t < 2 ^ 63 /\
  0 <= ReverseIterator.current_idx
         {| ReverseIterator.ptr := 1; ReverseIterator.current_idx := 0 |}
    < bits_per_block uint16_t /\
  ReverseIterator.decr uint16_t
    (ReverseIterator.incr uint16_t
       {| ReverseIterator.ptr := 1; ReverseIterator.current_idx := 0 |})
  = {| ReverseIterator.ptr := 1; ReverseIterator.current_idx := 0 |}.
Proof.
  assert (Hw : 0 < bits_per_block uint16_t < 2 ^ 63) by (vm_compute; split; reflexivity).
  assert (Hi : 0 <= ReverseIterator.current_idx
                      {| ReverseIterator.ptr := 1; ReverseIterator.current_idx := 0 |}
               < bits_per_block uint16_t) by (vm_compute; split; congruence).
  split; [exact Hw |]. split; [exact Hi |].
  exact (proj1 (reverse_cursor_steps_invert uint16_t _ Hw Hi)).
Defined.

Lemma decr_pos T k :
  fits_int T -> Iterator.decr T (pos T k) = pos T (k - 1).
Proof.
  intros HT. unfold Iterator.decr, pos. cbn [Iterator.ptr Iterator.current_idx].
  rewrite to_size_t_small, to_long_long_small by (width T HT; lia).
  destruct (Z.eqb_spec (k mod bits_per_block T) 0); f_equal; width T HT; divmod.
Qed.

Lemma iter_decr_pos T n k :
  fits_int T -> Nat.iter n (Iterator.decr T) (pos T k) = pos T (k - Z.of_nat n).
Proof.
  intros HT. induction n as [| n IH].
  - cbn. f_equal. lia.
  - rewrite Nat.iter_succ, IH, decr_pos by exact HT. f_equal. lia.
Qed.

(** X7.  The forward cursor walks backwards correctly: retreating [k + 1]
    times from [end()] gives the cursor of bit [size() - 1 - k], whose
    dereference is what [at] returns for that bit, and retreating [size()]
    times gives [begin()]. *)
Theorem backward_walk_from_end T b :
  fits_int T -> wf T b ->
  Nat.iter (Z.to_nat (size b)) (Iterator.decr T) (end_ T b) = begin_ b /\
  forall k, 0 <= k < size b ->
    exists v,
      Iterator.deref T (blocks b)
        (Nat.iter (Z.to_nat (k + 1)) (Iterator.decr T) (end_ T b)) = Some v /\
      at_ T (size b - 1 - k) b = Ok v b.
Proof.
  intros HT Hwf. rewrite (size_bits T b Hwf).
  assert (Hn : 0 <= bits b < 2 ^ 63) by apply Hwf.
  rewrite (end_pos T b HT Hwf), (begin_pos T). split.
  - rewrite iter_decr_pos by exact HT. f_equal. lia.
  - intros k Hk. exists (phys_bit T (blocks b) (bits b - 1 - k)). split.
    + rewrite iter_decr_pos by exact HT.
      replace (bits b - Z.of_nat (Z.to_nat (k + 1))) with (bits b - 1 - k) by lia.
      apply deref_pos; auto; lia.
    + apply at_in_range; auto; lia.
Qed.

Lemma backward_walk_from_end_witness :
  fits_int uint8_t /\ wf uint8_t nine_bits /\
  Nat.iter (Z.to_nat (size nine_bits)) (Iterator.decr uint8_t) (end_ uint8_t nine_bits)
    = begin_ nine_bits.
Proof.
  split; [exact fits_int_uint8_t |]. split; [exact nine_bits_wf |].
  exact (proj1 (backward_walk_from_end uint8_t nine_bits fits_int_uint8_t nine_bits_wf)).
Defined.

(** ** The mask *)

Lemma land_pred_width_supported T index :
  supported T ->
  Z.land index (bits_per_block T - 1) = index mod bits_per_block T.
Proof.
  intros [H | ->]; [now apply land_pred_width |].
  change (bits_per_block uint64_t - 1) with (Z.ones 6). now rewrite Z.land_ones.
Qed.

Lemma supported_width T : supported T -> 0 < bits_per_block T <= 64.
Proof.
  intros [H | ->]; [pose proof (fits_int_pos T H); lia |].
  change (bits_per_block uint64_t) with 64. lia.
Qed.

Lemma block_bitmask_mod T index :
  supported T ->
  block_bitmask T (to_size_t (index mod bits_per_block T)) = block_bitmask T index.
Proof.
  intros HT. pose proof (supported_width T HT) as Hw.
  pose proof (Z.mod_pos_bound index (bits_per_block T) ltac:(lia)) as Hm.
  rewrite to_size_t_small by lia. unfold block_bitmask.
  rewrite !land_pred_width_supported by exact HT.
  now rewrite Z.mod_mod by lia.
Qed.

(** X8.  Direct access and both cursors read a bit with the same mask: for
    8-, 16-, 32- and 64-bit blocks, dereferencing the forward or the reverse
    cursor at block [i / width], offset [i mod width] computes exactly what
    the unchecked read of index [i] computes, defined or not. *)
Theorem cursors_read_like_subscript T b i :
  supported T ->
  Iterator.deref T (blocks b) (pos T i) = subscript T b i /\
  ReverseIterator.deref T (blocks b) (rpos T i) = subscript T b i.
Proof.
  intros HT. unfold subscript, bit_at, Iterator.deref, ReverseIterator.deref, pos, rpos.
  cbn [Iterator.ptr Iterator.current_idx
       ReverseIterator.ptr ReverseIterator.current_idx].
  now rewrite block_bitmask_mod.
Qed.

Lemma cursors_read_like_subscript_witness :
  supported uint64_t /\
  Iterator.deref uint64_t [5] (pos uint64_t 61) =
    subscript uint64_t {| blocks := [5]; bits := 64 |} 61.
Proof.
  assert (HT : supported uint64_t) by (right; reflexivity).
  split; [exact HT |].
  exact (proj1 (cursors_read_like_subscript uint64_t {| blocks := [5]; bits := 64 |} 61 HT)).
Defined.

(** X9.  For 8-, 16- and 32-bit blocks the mask of index [i] is the single
    bit [2^(width - 1 - i mod width)]: offset 0 is the most significant bit
    of the block, offset [width - 1] the least significant, and the mask is
    a value of the block type. *)
Theorem mask_of_narrow_blocks T i :
  fits_int T ->
  exists m,
    block_bitmask T i = Some m /\
    m = 2 ^ (bits_per_block T - 1 - i mod bits_per_block T) /\
    0 < m < 2 ^ bits_per_block T /\
    (i mod bits_per_block T = 0 -> m = 2 ^ (bits_per_block T - 1)) /\
    (i mod bits_per_block T = bits_per_block T - 1 -> m = 1).
Proof.
  intros HT. eexists. split; [now apply block_bitmask_fits_int |].
  split; [reflexivity |].
  pose proof (fits_int_pos T HT) as Hw.
  pose proof (Z.mod_pos_bound i (bits_per_block T) ltac:(lia)) as Hm.
  split; [| split].
  - split; [apply Z.pow_pos_nonneg; lia | apply Z.pow_lt_mono_r; lia].
  - intros ->. f_equal. lia.
  - intros ->. replace (bits_per_block T - 1 - (bits_per_block T - 1)) with 0 by lia.
    reflexivity.
Qed.

Lemma mask_of_narrow_blocks_witness :
  fits_int uint16_t /\ block_bitmask uint16_t 35 = Some (2 ^ 12).
Proof.
  split; [exact fits_int_uint16_t |].
  destruct (mask_of_narrow_blocks uint16_t 35 fits_int_uint16_t) as (m & E & -> & _).
  exact E.
Defined.

(** X10.  For 64-bit blocks the [int] shift gives the single-bit mask only
    at offsets above 32; at offset 32 it gives [0xFFFFFFFF80000000] (the
    sign-extended [INT_MIN]), and at offsets below 32 the shift count is at
    least the width of [int], so the mask, and with it every read and write
    of such a bit, has no defined value. *)
Theorem mask_of_64_bit_blocks i :
  (32 < i mod 64 -> block_bitmask uint64_t i = Some (2 ^ (63 - i mod 64))) /\
  (i mod 64 = 32 -> block_bitmask uint64_t i = Some (2 ^ 64 - 2 ^ 31)) /\
  (i mod 64 < 32 ->
   block_bitmask uint64_t i = None /\
   forall b, set uint64_t i b = Undefined /\ clear uint64_t i b = Undefined /\
             subscript uint64_t b i = None).
Proof.
  assert (HT : supported uint64_t) by (right; reflexivity).
  pose proof (Z.mod_pos_bound i 64 ltac:(lia)) as Hm.
  assert (E : block_bitmask uint64_t i =
              to_block uint64_t <$> int_shl 1 (63 - i mod 64)).
  { unfold block_bitmask. rewrite land_pred_width_supported by exact HT.
    change (bits_per_block uint64_t) with 64.
    rewrite to_size_t_small by lia. f_equal. f_equal. lia. }
  split; [| split].
  - intros H. rewrite E, int_shl_one by lia.
    destruct (Z.eqb_spec (63 - i mod 64) 31); [lia |].
    cbn [fmap option_fmap option_map]. f_equal. apply Z.mod_small.
    change (bits_per_block uint64_t) with 64.
    split; [apply Z.pow_nonneg; lia | apply Z.pow_lt_mono_r; lia].
  - intros H. rewrite E, H. reflexivity.
  - intros H.
    assert (En : block_bitmask uint64_t i = None).
    { rewrite E. unfold int_shl.
      destruct (Z.ltb_spec (63 - i mod 64) 32); [lia |].
      now rewrite andb_false_r. }
    split; [exact En |]. intros b. unfold set, clear, store, subscript, bit_at.
    rewrite En. destruct (load (blocks b) (i / bits_per_block uint64_t)); now repeat split.
Qed.

Lemma mask_of_64_bit_blocks_witness :
  (32 < 40 mod 64 /\ block_bitmask uint64_t 40 = Some (2 ^ (63 - 40 mod 64))) /\
  (96 mod 64 = 32 /\ block_bitmask uint64_t 96 = Some (2 ^ 64 - 2 ^ 31)) /\
  (70 mod 64 < 32 /\ block_bitmask uint64_t 70 = None).
Proof.
  assert (H1 : 32 < 40 mod 64) by (vm_compute; reflexivity).
  assert (H2 : 96 mod 64 = 32) by reflexivity.
  assert (H3 : 70 mod 64 < 32) by (vm_compute; reflexivity).
  split; [| split].
  - split; [exact H1 |]. exact (proj1 (mask_of_64_bit_blocks 40) H1).
  - split; [exact H2 |]. exact (proj1 (proj2 (mask_of_64_bit_blocks 96)) H2).
  - split; [exact H3 |]. exact (proj1 (proj2 (proj2 (mask_of_64_bit_blocks 70)) H3)).
Defined.

(** ** How the mutators compose *)

Lemma bind_ok {A B} (m : M A) (k : A -> M B) a b b1 :
  m b = Ok a b1 -> bind m k b = k a b1.
Proof. intros E. unfold bind. now rewrite E. Qed.

(** X11.  At a valid index the later of [set(i)] and [clear(i)] wins:
    [set(i); clear(i)] leaves the array exactly as [clear(i)] alone does,
    and [clear(i); set(i)] exactly as [set(i)] alone. *)
Theorem last_write_wins T b i :
  fits_int T -> wf T b -> 0 <= i < size b ->
  (set T i ;> clear T i) b = clear T i b /\
  (clear T i ;> set T i) b = set T i b.
Proof.
  intros HT Hwf Hi. rewrite (size_bits T b Hwf) in Hi.
  destruct (set_spec T b i HT Hwf Hi) as (bs & Es & Hwfs & Hbs & Hps).
  destruct (clear_spec T b i HT Hwf Hi) as (bc & Ec & Hwfc & Hbc & Hpc).
  destruct (clear_spec T bs i HT Hwfs ltac:(lia)) as (bsc & Esc & Hwfsc & Hbsc & Hpsc).
  destruct (set_spec T bc i HT Hwfc ltac:(lia)) as (bcs & Ecs & Hwfcs & Hbcs & Hpcs).
  rewrite (bind_ok _ _ _ _ _ Es), (bind_ok _ _ _ _ _ Ec), Esc, Ecs, Es, Ec.
  split; f_equal; apply (phys_bit_ext T); auto; try congruence; intros p.
  - rewrite Hpsc, Hpc, Hps. now destruct (p =? i).
  - rewrite Hpcs, Hps, Hpc. now destruct (p =? i).
Qed.

Lemma last_write_wins_witness :
  fits_int uint8_t /\ wf uint8_t nine_bits /\ 0 <= 2 < size nine_bits /\
  (set uint8_t 2 ;> clear uint8_t 2) nine_bits = clear uint8_t 2 nine_bits /\
  (clear uint8_t 2 ;> set uint8_t 2) nine_bits = set uint8_t 2 nine_bits.
Proof.
  assert (Hi : 0 <= 2 < size nine_bits) by (vm_compute; split; congruence).
  split; [exact fits_int_uint8_t |]. split; [exact nine_bits_wf |].
  split; [exact Hi |].
  exact (last_write_wins uint8_t nine_bits 2 fits_int_uint8_t nine_bits_wf Hi).
Defined.

(** X12.  Writes to two different valid indices commute: whatever mix of
    [set] and [clear], either order leaves the same array, also when both
    bits live in the same block. *)
Theorem writes_commute T b i j :
  fits_int T -> wf T b -> 0 <= i < size b -> 0 <= j < size b -> i <> j ->
  (set T i ;> set T j) b = (set T j ;> set T i) b /\
  (set T i ;> clear T j) b = (clear T j ;> set T i) b /\
  (clear T i ;> clear T j) b = (clear T j ;> clear T i) b.
Proof.
  intros HT Hwf Hi Hj Hne. rewrite (size_bits T b Hwf) in Hi, Hj.
  destruct (set_spec T b i HT Hwf Hi) as (bsi & Esi & Hwfsi & Hbsi & Hpsi).
  destruct (set_spec T b j HT Hwf Hj) as (bsj & Esj & Hwfsj & Hbsj & Hpsj).
  destruct (clear_spec T b i HT Hwf Hi) as (bci & Eci & Hwfci & Hbci & Hpci).
  destruct (clear_spec T b j HT Hwf Hj) as (bcj & Ecj & Hwfcj & Hbcj & Hpcj).
  destruct (set_spec T bsi j HT Hwfsi ltac:(lia)) as (b1 & E1 & Hwf1 & Hb1 & Hp1).
  destruct (set_spec T bsj i HT Hwfsj ltac:(lia)) as (b2 & E2 & Hwf2 & Hb2 & Hp2).
  destruct (clear_spec T bsi j HT Hwfsi ltac:(lia)) as (b3 & E3 & Hwf3 & Hb3 & Hp3).
  destruct (set_spec T bcj i HT Hwfcj ltac:(lia)) as (b4 & E4 & Hwf4 & Hb4 & Hp4).
  destruct (clear_spec T bci j HT Hwfci ltac:(lia)) as (b5 & E5 & Hwf5 & Hb5 & Hp5).
  destruct (clear_spec T bcj i HT Hwfcj ltac:(lia)) as (b6 & E6 & Hwf6 & Hb6 & Hp6).
  rewrite !(bind_ok _ _ _ _ _ Esi), !(bind_ok _ _ _ _ _ Esj),
    !(bind_ok _ _ _ _ _ Eci), !(bind_ok _ _ _ _ _ Ecj), E1, E2, E3, E4, E5, E6.
  repeat split; f_equal; apply (phys_bit_ext T); auto; try congruence; intros p.
  - rewrite Hp1, Hp2, Hpsi, Hpsj. compare_cases.
  - rewrite Hp3, Hp4, Hpsi, Hpcj. compare_cases.
  - rewrite Hp5, Hp6, Hpci, Hpcj. compare_cases.
Qed.

Lemma writes_commute_witness :
  fits_int uint8_t /\ wf uint8_t nine_bits /\
  0 <= 1 < size nine_bits /\ 0 <= 2 < size nine_bits /\ 1 <> 2 /\
  (set uint8_t 1 ;> clear uint8_t 2) nine_bits =
  (clear uint8_t 2 ;> set uint8_t 1) nine_bits.
Proof.
  assert (H1 : 0 <= 1 < size nine_bits) by (vm_compute; split; congruence).
  assert (H2 : 0 <= 2 < size nine_bits) by (vm_compute; split; congruence).
  assert (Hne : 1 <> 2) by discriminate.
  split; [exact fits_int_uint8_t |]. split; [exact nine_bits_wf |].
  split; [exact H1 |]. split; [exact H2 |]. split; [exact Hne |].
  exact (proj1 (proj2 (writes_commute uint8_t nine_bits 1 2
                         fits_int_uint8_t nine_bits_wf H1 H2 Hne))).
Defined.

(** X13.  The bulk operations overwrite what came before and are
    idempotent: [set_all(); clear_all()] equals [clear_all()],
    [clear_all(); set_all()] equals [set_all()], each repeated equals itself
    once, and after [set_all()] a [set(i)] at a valid index changes nothing
    (likewise [clear(i)] after [clear_all()]). *)
Theorem bulk_operations_compose T b :
  fits_int T -> wf T b ->
  (set_all T ;> clear_all T) b = clear_all T b /\
  (clear_all T ;> set_all T) b = set_all T b /\
  (set_all T ;> set_all T) b = set_all T b /\
  (clear_all T ;> clear_all T) b = clear_all T b /\
  (forall i, 0 <= i < size b ->
     (set_all T ;> set T i) b = set_all T b /\
     (clear_all T ;> clear T i) b = clear_all T b).
Proof.
  intros HT Hwf. rewrite (size_bits T b Hwf).
  destruct (set_all_spec T b HT Hwf) as (bs & Es & Hwfs & Hbs & Hps).
  destruct (clear_all_spec T b HT Hwf) as (bc & Ec & Hwfc & Hbc & Hpc).
  destruct (clear_all_spec T bs HT Hwfs) as (bsc & Esc & Hwfsc & Hbsc & Hpsc).
  destruct (set_all_spec T bc HT Hwfc) as (bcs & Ecs & Hwfcs & Hbcs & Hpcs).
  destruct (set_all_spec T bs HT Hwfs) as (bss & Ess & Hwfss & Hbss & Hpss).
  destruct (clear_all_spec T bc HT Hwfc) as (bcc & Ecc & Hwfcc & Hbcc & Hpcc).
  rewrite !(bind_ok _ _ _ _ _ Es), !(bind_ok _ _ _ _ _ Ec), Esc, Ecs, Ess, Ecc, Es, Ec.
  split; [| split; [| split; [| split]]].
  - f_equal. apply (phys_bit_ext T); auto; try congruence. intros p.
    rewrite Hpsc, Hpc, Hps, Hbs. now destruct ((0 <=? p) && (p <? bits b)).
  - f_equal. apply (phys_bit_ext T); auto; try congruence. intros p.
    rewrite Hpcs, Hps, Hpc, Hbc. now destruct ((0 <=? p) && (p <? bits b)).
  - f_equal. apply (phys_bit_ext T); auto; try congruence. intros p.
    rewrite Hpss, Hps, Hbs. now destruct ((0 <=? p) && (p <? bits b)).
  - f_equal. apply (phys_bit_ext T); auto; try congruence. intros p.
    rewrite Hpcc, Hpc, Hbc. now destruct ((0 <=? p) && (p <? bits b)).
  - intros i Hi.
    destruct (set_spec T bs i HT Hwfs ltac:(lia)) as (b1 & E1 & Hwf1 & Hb1 & Hp1).
    destruct (clear_spec T bc i HT Hwfc ltac:(lia)) as (b2 & E2 & Hwf2 & Hb2 & Hp2).
    rewrite !(bind_ok _ _ _ _ _ Es), !(bind_ok _ _ _ _ _ Ec), E1, E2.
    split; f_equal; apply (phys_bit_ext T); auto; intros p.
    + rewrite Hp1, Hps. compare_cases.
    + rewrite Hp2, Hpc. compare_cases.
Qed.

Lemma bulk_operations_compose_witness :
  fits_int uint8_t /\ wf uint8_t nine_bits /\
  (set_all uint8_t ;> clear_all uint8_t) nine_bits = clear_all uint8_t nine_bits.
Proof.
  split; [exact fits_int_uint8_t |]. split; [exact nine_bits_wf |].
  exact (proj1 (bulk_operations_compose uint8_t nine_bits fits_int_uint8_t nine_bits_wf)).
Defined.

(** ** Iterating after the bulk operations and after construction *)

Lemma fmap_seqZ_const (f : Z -> bool) v lo n :
  (forall p, lo <= p < lo + n -> f p = v) ->
  f <$> seqZ lo n = replicate (Z.to_nat n) v.
Proof.
  intros H. apply list_eq. intros k. rewrite list_lookup_fmap.
  destruct (Z.lt_ge_cases (Z.of_nat k) n) as [Hlt | Hge].
  - rewrite lookup_seqZ_lt by lia. cbn [fmap option_fmap option_map].
    rewrite H by lia. symmetry. apply lookup_replicate_2. lia.
  - rewrite lookup_seqZ_ge by lia. symmetry.
    apply lookup_replicate_None. lia.
Qed.

Lemma forward_iteration_spec T b fuel :
  fits_int T -> wf T b -> (Z.to_nat (bits b) < fuel)%nat ->
  forward_iteration T fuel b = Yields (phys_bit T (blocks b) <$> seqZ 0 (bits b)).
Proof.
  intros HT Hwf Hfuel. assert (Hn : 0 <= bits b < 2 ^ 63) by apply Hwf.
  unfold forward_iteration. rewrite (begin_pos T), (end_pos T) by assumption.
  rewrite (forward_loop_spec T b HT Hwf (Z.to_nat (bits b)) 0 fuel) by lia.
  now rewrite Z2Nat.id by lia.
Qed.

(** X14.  After [set_all()] forward iteration yields [size()] times true,
    after [clear_all()] [size()] times false. *)
Theorem iteration_after_bulk_operations T b :
  fits_int T -> wf T b ->
  exists bs bc,
    set_all T b = Ok tt bs /\ clear_all T b = Ok tt bc /\
    forall fuel, (Z.to_nat (size b) < fuel)%nat ->
      forward_iteration T fuel bs = Yields (replicate (Z.to_nat (size b)) true) /\
      forward_iteration T fuel bc = Yields (replicate (Z.to_nat (size b)) false).
Proof.
  intros HT Hwf. rewrite (size_bits T b Hwf).
  destruct (set_all_spec T b HT Hwf) as (bs & Es & Hwfs & Hbs & Hps).
  destruct (clear_all_spec T b HT Hwf) as (bc & Ec & Hwfc & Hbc & Hpc).
  exists bs, bc. split; [exact Es |]. split; [exact Ec |].
  intros fuel Hfuel.
  rewrite !forward_iteration_spec by (auto; lia). rewrite Hbs, Hbc.
  split; f_equal; apply fmap_seqZ_const; intros p Hp.
  - rewrite Hps. compare_cases.
  - rewrite Hpc. compare_cases.
Qed.

Lemma iteration_after_bulk_operations_witness :
  fits_int uint8_t /\ wf uint8_t nine_bits /\
  exists bs bc,
    set_all uint8_t nine_bits = Ok tt bs /\ clear_all uint8_t nine_bits = Ok tt bc /\
    forall fuel, (Z.to_nat (size nine_bits) < fuel)%nat ->
      forward_iteration uint8_t fuel bs =
        Yields (replicate (Z.to_nat (size nine_bits)) true) /\
      forward_iteration uint8_t fuel bc =
        Yields (replicate (Z.to_nat (size nine_bits)) false).
Proof.
  split; [exact fits_int_uint8_t |]. split; [exact nine_bits_wf |].
  exact (iteration_after_bulk_operations uint8_t nine_bits
           fits_int_uint8_t nine_bits_wf).
Defined.

(** X15.  The default constructor gives an array of 16 bits in
    [ceil(16 / width)] blocks, every bit reading false through [at] and a
    forward iteration yielding 16 times false, whatever the allocation
    held; so does every constructor call for its own [num_bits]. *)
Theorem fresh_array_iterates_as_zeros T heap :
  fits_int T ->
  (exists b,
     construct_default T heap = Ok tt b /\ size b = 16 /\
     Z.of_nat (length (blocks b)) = ceil_div 16 (bits_per_block T) /\
     (forall i, 0 <= i < 16 -> at_ T i b = Ok false b) /\
     forall fuel, (16 < fuel)%nat ->
       forward_iteration T fuel b = Yields (replicate 16 false)) /\
  (forall n, 0 <= n < 2 ^ 63 ->
     exists b,
       construct T heap n = Ok tt b /\
       forall fuel, (Z.to_nat n < fuel)%nat ->
         forward_iteration T fuel b = Yields (replicate (Z.to_nat n) false)).
Proof.
  intros HT.
  assert (Hgen : forall n, 0 <= n < 2 ^ 63 ->
            exists b, construct T heap n = Ok tt b /\ wf T b /\ bits b = n /\
              (forall i, 0 <= i < n -> at_ T i b = Ok false b) /\
              forall fuel, (Z.to_nat n < fuel)%nat ->
                forward_iteration T fuel b = Yields (replicate (Z.to_nat n) false)).
  { intros n Hn.
    destruct (construct_spec T heap n HT Hn) as (b & E & Hwf & Hb & Hp).
    exists b. split; [exact E |]. split; [exact Hwf |]. split; [exact Hb |]. split.
    - intros i Hi. rewrite at_in_range by (auto; lia). rewrite Hp.
      f_equal. compare_cases.
    - intros fuel Hfuel. rewrite forward_iteration_spec by (auto; lia).
      rewrite Hb. f_equal. apply fmap_seqZ_const. intros p Hlt.
      rewrite Hp. compare_cases. }
  split.
  - destruct (Hgen 16 ltac:(lia)) as (b & E & Hwf & Hb & Hat & Hit).
    exists b. split; [exact E |]. split; [| split; [| split]].
    + now rewrite (size_bits T b Hwf).
    + destruct Hwf as (_ & Hlen & _). now rewrite Hlen, Hb.
    + exact Hat.
    + intros fuel Hfuel. apply Hit. change (Z.to_nat 16) with 16%nat. exact Hfuel.
  - intros n Hn. destruct (Hgen n Hn) as (b & E & _ & _ & _ & Hit).
    exists b. now split.
Qed.

Lemma fresh_array_iterates_as_zeros_witness :
  fits_int uint8_t /\
  exists b,
    construct_default uint8_t (fun _ => 255) = Ok tt b /\ size b = 16 /\
    Z.of_nat (length (blocks b)) = ceil_div 16 (bits_per_block uint8_t) /\
    (forall i, 0 <= i < 16 -> at_ uint8_t i b = Ok false b) /\
    forall fuel, (16 < fuel)%nat ->
      forward_iteration uint8_t fuel b = Yields (replicate 16 false).
Proof.
  split; [exact fits_int_uint8_t |].
  exact (proj1 (fresh_array_iterates_as_zeros uint8_t (fun _ => 255) fits_int_uint8_t)).
Defined.

(** X16.  With 64-bit blocks every constructor call for at least one bit
    has no defined behaviour: its first [clear(0)] shifts the [int] literal
    by 63.  Only the empty array can be built. *)
Theorem construct_64_bit_blocks heap n :
  0 < n < 2 ^ 63 ->
  construct uint64_t heap n = Undefined.
Proof.
  intros Hn. unfold construct, clear_all. cbn [bits].
  destruct (Z.to_nat n) as [| count] eqn:E; [lia |].
  cbn [for_loop]. unfold bind at 1.
  change (to_size_t 0) with 0.
  unfold clear, store.
  replace (block_bitmask uint64_t 0) with (@None Z) by reflexivity.
  now destruct (load _ _).
Qed.

Lemma construct_64_bit_blocks_witness :
  0 < 64 < 2 ^ 63 /\ construct uint64_t (fun _ => 0) 64 = Undefined.
Proof.
  assert (Hn : 0 < 64 < 2 ^ 63) by lia.
  split; [exact Hn |]. exact (construct_64_bit_blocks (fun _ => 0) 64 Hn).
Defined.

(** ** Unchecked access beyond the logical bit count *)

Lemma buffer_load T mem i :
  fits_int T -> 0 <= i < Z.of_nat (length mem) * bits_per_block T ->
  exists blk, load mem (i / bits_per_block T) = Some blk /\
              (Z.to_nat (i / bits_per_block T) < length mem)%nat.
Proof.
  intros HT Hi.
  assert (Hq : 0 <= i / bits_per_block T < Z.of_nat (length mem)).
  { width T HT; divmod. }
  assert (Hlt : (Z.to_nat (i / bits_per_block T) < length mem)%nat) by lia.
  destruct (lookup_lt_is_Some_2 _ _ Hlt) as [blk Hblk].
  exists blk. split; [| exact Hlt]. rewrite load_lookup by lia. exact Hblk.
Qed.

Lemma bit_at_buffer T b i :
  fits_int T -> 0 <= i < Z.of_nat (length (blocks b)) * bits_per_block T ->
  bit_at T b i = Some (phys_bit T (blocks b) i).
Proof.
  intros HT Hi. destruct (buffer_load T (blocks b) i HT Hi) as (blk & Hl & _).
  unfold bit_at, phys_bit. rewrite Hl, (block_bitmask_fits_int T i HT).
  cbn [mbind option_bind]. f_equal. apply mask_test.
  width T HT; divmod.
Qed.

Lemma store_buffer T f v b i :
  writes v f -> fits_int T -> wf T b ->
  0 <= i < Z.of_nat (length (blocks b)) * bits_per_block T ->
  exists b',
    store T i f b = Ok tt b' /\ wf T b' /\ bits b' = bits b /\
    forall p, phys_bit T (blocks b') p = if p =? i then v else phys_bit T (blocks b) p.
Proof.
  intros Hf HT Hwf Hi.
  destruct (buffer_load T (blocks b) i HT Hi) as (blk & Hl & Hlt).
  pose proof (fits_int_pos T HT) as Hw.
  unfold store. rewrite Hl, (block_bitmask_fits_int T i HT).
  eexists. split; [reflexivity |]. split; [| split; [reflexivity |]].
  - destruct Hwf as (Hn & Hlen & Hall). repeat split; cbn [bits blocks]; try lia.
    + rewrite length_insert. exact Hlen.
    + apply Forall_insert; [exact Hall |]. apply to_block_range. lia.
  - intros p. cbn [blocks]. unfold phys_bit.
    set (w := bits_per_block T) in *.
    destruct (Z.lt_ge_cases (p / w) 0) as [Hneg | Hpos].
    { rewrite !load_neg by lia.
      destruct (Z.eqb_spec p i) as [-> | _]; [| reflexivity].
      exfalso. revert Hneg. subst w. width T HT; divmod. }
    rewrite !load_lookup by lia.
    assert (Hq : 0 <= i / w) by (subst w; width T HT; divmod).
    rewrite load_lookup in Hl by lia.
    destruct (Z.eq_dec (p / w) (i / w)) as [Eq | Ne].
    + rewrite Eq, list_lookup_insert_eq, Hl by exact Hlt.
      assert (Hj : 0 <= w - 1 - p mod w < w) by (subst w; width T HT; divmod).
      rewrite testbit_to_block by (subst w; lia). fold w.
      replace (w - 1 - p mod w <? w) with true by (symmetry; apply Z.ltb_lt; lia).
      cbn [andb]. rewrite Hf by (subst w; width T HT; divmod).
      destruct (Z.eqb_spec (w - 1 - p mod w) (w - 1 - i mod w)) as [E | E];
        destruct (Z.eqb_spec p i) as [E' | E']; try reflexivity; exfalso.
      * apply E'. rewrite (Z.div_mod p w), (Z.div_mod i w) by lia. rewrite Eq.
        f_equal. lia.
      * apply E. now rewrite E'.
    + rewrite list_lookup_insert_ne by lia.
      destruct (Z.eqb_spec p i) as [-> | _]; [contradiction | reflexivity].
Qed.

(** X17.  An unchecked write to a padding index (at or beyond [size()] but
    still inside the last block) returns normally and changes no logical
    bit: [size()] and every [at(j)], [j < size()], are as before.  The bit
    written is visible through [operator[]], while [at] still rejects the
    index. *)
Theorem padding_write_is_invisible T b i :
  fits_int T -> wf T b ->
  size b <= i < Z.of_nat (length (blocks b)) * bits_per_block T ->
  exists b1 b2,
    set T i b = Ok tt b1 /\ clear T i b = Ok tt b2 /\
    size b1 = size b /\ size b2 = size b /\
    (forall j, 0 <= j < size b ->
       exists v, at_ T j b = Ok v b /\ at_ T j b1 = Ok v b1 /\ at_ T j b2 = Ok v b2) /\
    subscript T b1 i = Some true /\ subscript T b2 i = Some false /\
    at_ T i b1 = Raise (range_error "index out of range") b1 /\
    at_ T i b2 = Raise (range_error "index out of range") b2.
Proof.
  intros HT Hwf Hi. rewrite (size_bits T b Hwf) in *.
  assert (Hn : 0 <= bits b < 2 ^ 63) by apply Hwf.
  destruct (store_buffer T _ true b i set_writes HT Hwf ltac:(lia))
    as (b1 & E1 & Hwf1 & Hb1 & Hp1).
  destruct (store_buffer T _ false b i clear_writes HT Hwf ltac:(lia))
    as (b2 & E2 & Hwf2 & Hb2 & Hp2).
  assert (Hl1 : length (blocks b1) = length (blocks b)).
  { destruct Hwf as (_ & Hl & _), Hwf1 as (_ & Hl' & _). rewrite Hb1 in Hl'. lia. }
  assert (Hl2 : length (blocks b2) = length (blocks b)).
  { destruct Hwf as (_ & Hl & _), Hwf2 as (_ & Hl' & _). rewrite Hb2 in Hl'. lia. }
  exists b1, b2. split; [exact E1 |]. split; [exact E2 |].
  rewrite (size_bits T b1 Hwf1), (size_bits T b2 Hwf2).
  split; [exact Hb1 |]. split; [exact Hb2 |]. split; [| split; [| split; [| split]]].
  - intros j Hj. exists (phys_bit T (blocks b) j).
    rewrite !at_in_range by (auto; lia). rewrite Hp1, Hp2.
    destruct (Z.eqb_spec j i); [lia | now repeat split].
  - unfold subscript. rewrite bit_at_buffer by (auto; lia).
    now rewrite Hp1, Z.eqb_refl.
  - unfold subscript. rewrite bit_at_buffer by (auto; lia).
    now rewrite Hp2, Z.eqb_refl.
  - apply at_out_of_range; lia.
  - apply at_out_of_range; lia.
Qed.

Lemma padding_write_is_invisible_witness :
  fits_int uint8_t /\ wf uint8_t nine_bits /\
  size nine_bits <= 12 < Z.of_nat (length (blocks nine_bits)) * bits_per_block uint8_t /\
  exists b1,
    set uint8_t 12 nine_bits = Ok tt b1 /\ size b1 = size nine_bits /\
    subscript uint8_t b1 12 = Some true /\
    at_ uint8_t 12 b1 = Raise (range_error "index out of range") b1.
Proof.
  assert (Hi : size nine_bits <= 12
               < Z.of_nat (length (blocks nine_bits)) * bits_per_block uint8_t).
  { vm_compute. split; [congruence | reflexivity]. }
  split; [exact fits_int_uint8_t |]. split; [exact nine_bits_wf |].
  split; [exact Hi |].
  destruct (padding_write_is_invisible uint8_t nine_bits 12
              fits_int_uint8_t nine_bits_wf Hi)
    as (b1 & b2 & E1 & _ & Hs & _ & _ & Hsub & _ & Hat & _).
  exists b1. repeat split; assumption.
Defined.

(** X18.  An unchecked access whose index maps to a block outside the
    buffer has no defined behaviour: [set], [clear] and [operator[]] at any
    index of at least [blocks * width], for every positive block width. *)
Theorem access_outside_buffer_is_undefined T b i :
  0 < bits_per_block T ->
  Z.of_nat (length (blocks b)) * bits_per_block T <= i ->
  set T i b = Undefined /\ clear T i b = Undefined /\ subscript T b i = None.
Proof.
  intros Hw Hi.
  assert (Hl : load (blocks b) (i / bits_per_block T) = None).
  { assert (Z.of_nat (length (blocks b)) <= i / bits_per_block T).
    { apply Z.div_le_lower_bound; lia. }
    rewrite load_lookup by lia. apply lookup_ge_None. lia. }
  unfold set, clear, store, subscript, bit_at. rewrite Hl. now repeat split.
Qed.

Lemma access_outside_buffer_is_undefined_witness :
  0 < bits_per_block uint8_t /\
  Z.of_nat (length (blocks nine_bits)) * bits_per_block uint8_t <= 16 /\
  set uint8_t 16 nine_bits = Undefined /\ clear uint8_t 16 nine_bits = Undefined /\
  subscript uint8_t nine_bits 16 = None.
Proof.
  assert (Hw : 0 < bits_per_block uint8_t) by (vm_compute; reflexivity).
  assert (Hi : Z.of_nat (length (blocks nine_bits)) * bits_per_block uint8_t <= 16)
    by (vm_compute; congruence).
  split; [exact Hw |]. split; [exact Hi |].
  exact (access_outside_buffer_is_undefined uint8_t nine_bits 16 Hw Hi).
Defined.

(** ** What reverse iteration visits *)

Lemma rend_rpos T b : fits_int T -> rend T b = rpos T (bits_per_block T - 1).
Proof.
  intros HT. unfold rend, rpos, ReverseIterator.ctor. cbn.
  rewrite to_size_t_small, to_long_long_small by (width T HT; lia).
  f_equal; width T HT; reflexivity.
Qed.

Lemma rbegin_rpos T b :
  fits_int T -> wf T b ->
  rbegin T b =
    rpos T (if bits b mod bits_per_block T =? 0
            then bits b + bits_per_block T - 1 else bits b - 1).
Proof.
  intros HT (Hn & _). unfold rbegin, rpos, ReverseIterator.ctor.
  rewrite (to_size_t_small (bits b)) by lia.
  rewrite (to_long_long_small (bits b mod bits_per_block T)) by (width T HT; divmod).
  destruct (Z.eqb_spec (bits b mod bits_per_block T) 0) as [E | E].
  - rewrite E. cbn [Z.sub Z.add Z.opp Z.ltb Z.compare].
    cbn [ReverseIterator.ptr].
    rewrite to_size_t_small, to_long_long_small by (width T HT; lia).
    f_equal; width T HT; divmod.
  - destruct (Z.ltb_spec (bits b mod bits_per_block T - 1) 0) as [Hlt | Hge].
    + exfalso. revert Hlt E. width T HT; divmod.
    + f_equal; width T HT; divmod.
Qed.

Lemma rincr_rpos T k :
  fits_int T -> ReverseIterator.incr T (rpos T k) = rpos T (k - 1).
Proof.
  intros HT. unfold ReverseIterator.incr, rpos.
  cbn [ReverseIterator.ptr ReverseIterator.current_idx].
  rewrite to_size_t_small, to_long_long_small by (width T HT; lia).
  destruct (Z.eqb_spec (k mod bits_per_block T) 0); f_equal; width T HT; divmod.
Qed.

Lemma rne_rpos T j k :
  fits_int T -> ReverseIterator.ne (rpos T j) (rpos T k) = negb (j =? k).
Proof.
  intros HT. unfold ReverseIterator.ne, rpos.
  cbn [ReverseIterator.ptr ReverseIterator.current_idx].
  destruct (Z.eqb_spec j k) as [-> | Hne].
  - now rewrite !Z.eqb_refl.
  - destruct (Z.eqb_spec (j / bits_per_block T) (k / bits_per_block T));
      destruct (Z.eqb_spec (j mod bits_per_block T) (k mod bits_per_block T));
      try reflexivity.
    exfalso. apply Hne. width T HT; divmod.
Qed.

Lemma rderef_rpos T b k :
  fits_int T -> wf T b -> 0 <= k < bits b ->
  ReverseIterator.deref T (blocks b) (rpos T k) = Some (phys_bit T (blocks b) k).
Proof.
  intros HT Hwf Hk. destruct (wf_load T b k HT Hwf Hk) as (blk & Hl & _).
  unfold ReverseIterator.deref, phys_bit, rpos.
  cbn [ReverseIterator.ptr ReverseIterator.current_idx].
  rewrite Hl. rewrite to_size_t_small by (width T HT; divmod).
  rewrite (block_bitmask_fits_int T _ HT). cbn [mbind option_bind].
  rewrite Z.mod_mod by (width T HT; lia). f_equal. apply mask_test.
  width T HT; divmod.
Qed.

Lemma rderef_outside T mem it :
  load mem (ReverseIterator.ptr it) = None -> ReverseIterator.deref T mem it = None.
Proof. intros H. unfold ReverseIterator.deref. now rewrite H. Qed.

Lemma print_loop_reverse_loop T fuel mem it last :
  print_loop T fuel mem it last = reverse_loop T fuel mem it last.
Proof.
  revert it. induction fuel as [| fuel IH]; intros it; [reflexivity |].
  cbn [print_loop reverse_loop rpost_incr snd]. now rewrite IH.
Qed.

Lemma reverse_seqZ_succ m d :
  reverse (seqZ m (Z.of_nat (S d))) = (m + Z.of_nat d) :: reverse (seqZ m (Z.of_nat d)).
Proof.
  replace (Z.of_nat (S d)) with (Z.of_nat d + 1) by lia.
  rewrite seqZ_app by lia. rewrite reverse_app.
  rewrite (seqZ_cons (m + Z.of_nat d) 1) by lia.
  rewrite seqZ_nil by lia. reflexivity.
Qed.

(** The reverse loop from bit [z + d] down to, and excluding, bit [z], all
    of them inside the array. *)
Lemma reverse_loop_down T b z :
  fits_int T -> wf T b -> -1 <= z ->
  forall d fuel,
    z + Z.of_nat d < bits b -> (d < fuel)%nat ->
    reverse_loop T fuel (blocks b) (rpos T (z + Z.of_nat d)) (rpos T z) =
      Yields (phys_bit T (blocks b) <$> reverse (seqZ (z + 1) (Z.of_nat d))).
Proof.
  intros HT Hwf Hz. induction d as [| d IH]; intros fuel Hd Hfuel.
  - destruct fuel as [| fuel]; [lia |]. cbn [reverse_loop].
    rewrite rne_rpos by exact HT.
    replace (z + Z.of_nat 0 =? z) with true by (symmetry; apply Z.eqb_eq; lia).
    reflexivity.
  - destruct fuel as [| fuel]; [lia |]. cbn [reverse_loop].
    rewrite rne_rpos by exact HT.
    replace (z + Z.of_nat (S d) =? z) with false by (symmetry; apply Z.eqb_neq; lia).
    cbn [negb]. rewrite rderef_rpos by (auto; lia).
    rewrite rincr_rpos by exact HT.
    replace (z + Z.of_nat (S d) - 1) with (z + Z.of_nat d) by lia.
    rewrite IH by lia. cbn [yield]. rewrite reverse_seqZ_succ.
    cbn [fmap list_fmap]. do 3 f_equal. lia.
Qed.


(** X19.  When [size()] is a positive multiple of the block width, reverse
    iteration starts at the block one past the buffer: [rbegin()] is
    [(blocks + size()/width, width - 1)], it differs from [rend()], and the
    loop's first dereference is outside the buffer.  [print] of [main.cpp]
    is this loop. *)
Theorem reverse_iteration_full_last_block T b :
  fits_int T -> wf T b ->
  0 < size b -> size b mod bits_per_block T = 0 ->
  rbegin T b =
    {| ReverseIterator.ptr := Z.of_nat (length (blocks b));
       ReverseIterator.current_idx := bits_per_block T - 1 |} /\
  load (blocks b) (ReverseIterator.ptr (rbegin T b)) = None /\
  forall fuel,
    reverse_iteration T (S fuel) b = Stuck /\ print T (S fuel) b = Stuck.
Proof.
  intros HT Hwf Hpos Hmod. rewrite (size_bits T b Hwf) in *.
  assert (Hlen : Z.of_nat (length (blocks b)) = bits b / bits_per_block T).
  { destruct Hwf as (_ & Hl & _). rewrite Hl. unfold ceil_div.
    revert Hmod. width T HT; divmod. }
  assert (Hrb : rbegin T b = rpos T (bits b + bits_per_block T - 1)).
  { rewrite rbegin_rpos by assumption.
    now replace (bits b mod bits_per_block T =? 0) with true
      by (symmetry; apply Z.eqb_eq; exact Hmod). }
  assert (Hptr : ReverseIterator.ptr (rbegin T b) = Z.of_nat (length (blocks b))).
  { rewrite Hrb, Hlen. unfold rpos. cbn [ReverseIterator.ptr].
    revert Hmod. width T HT; divmod. }
  assert (Hload : load (blocks b) (ReverseIterator.ptr (rbegin T b)) = None).
  { rewrite Hptr, load_lookup by lia. apply lookup_ge_None. lia. }
  split; [| split; [exact Hload |]].
  - rewrite Hrb, Hlen. unfold rpos. f_equal; revert Hmod; width T HT; divmod.
  - intros fuel.
    assert (E : reverse_iteration T (S fuel) b = Stuck).
    { unfold reverse_iteration. cbn [reverse_loop].
      rewrite (rderef_outside T _ _ Hload).
      rewrite Hrb, (rend_rpos T b HT), rne_rpos by exact HT.
      replace (bits b + bits_per_block T - 1 =? bits_per_block T - 1) with false
        by (symmetry; apply Z.eqb_neq; lia).
      reflexivity. }
    split; [exact E |]. unfold print. now rewrite print_loop_reverse_loop.
Qed.

Lemma twenty_four_ones_wf : wf uint8_t twenty_four_ones.
Proof.
  repeat split; cbn; try lia. repeat constructor; cbn; lia.
Defined.

Lemma reverse_iteration_full_last_block_witness :
  fits_int uint8_t /\ wf uint8_t twenty_four_ones /\
  0 < size twenty_four_ones /\ size twenty_four_ones mod bits_per_block uint8_t = 0 /\
  forall fuel,
    reverse_iteration uint8_t (S fuel) twenty_four_ones = Stuck /\
    print uint8_t (S fuel) twenty_four_ones = Stuck.
Proof.
  assert (Hpos : 0 < size twenty_four_ones) by (vm_compute; reflexivity).
  assert (Hmod : size twenty_four_ones mod bits_per_block uint8_t = 0) by reflexivity.
  split; [exact fits_int_uint8_t |]. split; [exact twenty_four_ones_wf |].
  split; [exact Hpos |]. split; [exact Hmod |].
  exact (proj2 (proj2 (reverse_iteration_full_last_block uint8_t twenty_four_ones
                         fits_int_uint8_t twenty_four_ones_wf Hpos Hmod))).
Defined.

(** X20.  When [size()] exceeds the block width and is not a multiple of
    it, reverse iteration ends normally but yields only [size() - width]
    values: bits [size() - 1] down to [width], the [k]-th being what
    [at(size() - 1 - k)] returns.  The bits of the first block are never
    visited. *)
Theorem reverse_iteration_skips_first_block T b :
  fits_int T -> wf T b ->
  bits_per_block T < size b -> size b mod bits_per_block T <> 0 ->
  exists l,
    (forall fuel, (Z.to_nat (size b - bits_per_block T) < fuel)%nat ->
       reverse_iteration T fuel b = Yields l /\ print T fuel b = Yields l) /\
    Z.of_nat (length l) = size b - bits_per_block T /\
    forall k, 0 <= k < size b - bits_per_block T ->
      exists v, l !! Z.to_nat k = Some v /\ at_ T (size b - 1 - k) b = Ok v b.
Proof.
  intros HT Hwf Hgt Hmod. rewrite (size_bits T b Hwf) in *.
  pose proof (fits_int_pos T HT) as Hw.
  set (d := Z.to_nat (bits b - bits_per_block T)).
  assert (Hd : Z.of_nat d = bits b - bits_per_block T) by (subst d; lia).
  exists (phys_bit T (blocks b) <$> reverse (seqZ (bits_per_block T - 1 + 1) (Z.of_nat d))).
  split; [| split].
  - intros fuel Hfuel.
    assert (E : reverse_iteration T fuel b =
                Yields (phys_bit T (blocks b) <$>
                        reverse (seqZ (bits_per_block T - 1 + 1) (Z.of_nat d)))).
    { unfold reverse_iteration. rewrite rbegin_rpos, (rend_rpos T b HT) by assumption.
      replace (bits b mod bits_per_block T =? 0) with false
        by (symmetry; apply Z.eqb_neq; exact Hmod).
      replace (bits b - 1) with (bits_per_block T - 1 + Z.of_nat d) by lia.
      apply reverse_loop_down; auto; lia. }
    split; [exact E |]. unfold print. rewrite print_loop_reverse_loop. exact E.
  - rewrite length_fmap, length_reverse, length_seqZ. lia.
  - intros k Hk. exists (phys_bit T (blocks b) (bits b - 1 - k)). split.
    + rewrite list_lookup_fmap, reverse_lookup by (rewrite length_seqZ; lia).
      rewrite length_seqZ, lookup_seqZ_lt by lia.
      cbn [fmap option_fmap option_map]. do 2 f_equal. lia.
    + apply at_in_range; auto; lia.
Qed.

Lemma seventeen_bits_wf : wf uint8_t seventeen_bits.
Proof.
  repeat split; cbn; try lia. repeat constructor; cbn; lia.
Defined.

Lemma reverse_iteration_skips_first_block_witness :
  fits_int uint8_t /\ wf uint8_t seventeen_bits /\
  bits_per_block uint8_t < size seventeen_bits /\
  size seventeen_bits mod bits_per_block uint8_t <> 0 /\
  exists l,
    (forall fuel, (Z.to_nat (size seventeen_bits - bits_per_block uint8_t) < fuel)%nat ->
       reverse_iteration uint8_t fuel seventeen_bits = Yields l /\
       print uint8_t fuel seventeen_bits = Yields l) /\
    Z.of_nat (length l) = size seventeen_bits - bits_per_block uint8_t.
Proof.
  assert (Hgt : bits_per_block uint8_t < size seventeen_bits) by (vm_compute; reflexivity).
  assert (Hmod : size seventeen_bits mod bits_per_block uint8_t <> 0)
    by (vm_compute; congruence).
  split; [exact fits_int_uint8_t |]. split; [exact seventeen_bits_wf |].
  split; [exact Hgt |]. split; [exact Hmod |].
  destruct (reverse_iteration_skips_first_block uint8_t seventeen_bits
              fits_int_uint8_t seventeen_bits_wf Hgt Hmod) as (l & H1 & H2 & _).
  exists l. split; assumption.
Defined.



